(** * The peer-state synchronisation core of [src/client/client.ts]

    A shallow embedding of class [SocketHandler] (the three socket handlers
    [id], [clients], [removeClient], the 50 ms publisher and the per-frame
    [updateClientCubes]) together with the part of three.js it calls.

    - JavaScript numbers are kept abstract behind the class [Number]: the
      code only adds, subtracts and multiplies them and writes the literals
      [0], [1] and [0.1].  The instance is IEEE binary64, what the program
      runs on.  Time stamps, [Date.now()] and the field [t] of a message
      are such numbers too.
    - The text [+] makes of a number ([Number::toString]) and
      [Quaternion.slerp] are parameters ([ToString], [Slerp]).
    - The three objects used as dictionaries ([clientCubes], [positions],
      [quaternions]) are created by [{}].  A finite map holds what was
      written under each key, which is what a read of that key gives; a
      read of a key that nothing was written under finds what
      [Object.prototype] holds ([Object_prototype]), so the presence test
      of [handleClients] is [truthy].  [updateClientCubes] reads
      [positions] and [quaternions] under the keys of [clientCubes] only,
      and these are never names of [Object.prototype] ([wf_own]).  A
      write under [__proto__] is kept like any other, a read gives it
      back; that it also makes the value the prototype of the dictionary
      is not followed further.
    - Scene objects live in a store and are referred to by their index, so
      that the mesh held by [clientCubes] and the child held by the scene
      are one object. *)

From Stdlib Require Import ZArith QArith Qabs Qreals Floats Reals Lra Lqa.
From stdpp Require Import gmap strings list fin_maps pretty.

Local Open Scope Z_scope.

(** ** Numbers *)

(** The arithmetic of the JavaScript runtime that the program uses. *)
Class Number (num : Type) := {
  num_zero : num;
  num_one : num;
  num_add : num → num → num;
  num_sub : num → num → num;
  num_mul : num → num → num;
  (** the literal [0.1] *)
  num_tenth : num
}.

(** IEEE 754 binary64, the numbers of the program. *)
#[export] Instance float_Number : Number float := {|
  num_zero := 0%float;
  num_one := 1%float;
  num_add := PrimFloat.add;
  num_sub := PrimFloat.sub;
  num_mul := PrimFloat.mul;
  num_tenth := 0x1.999999999999ap-4%float
|}.

(** [Number::toString(x)], which [string + number] applies to the number:
    the digits are the run time's, so it is a parameter. *)
Class ToString (num : Type) := toString : num → string.

(** ** The part of three.js the handler calls *)

Module THREE.

Record Vector3 (num : Type) := mkVector3 { x : num; y : num; z : num }.
Arguments mkVector3 {num} _ _ _.
Arguments x {num} _.
Arguments y {num} _.
Arguments z {num} _.

Record Quaternion (num : Type) := mkQuaternion { _x : num; _y : num; _z : num; _w : num }.
Arguments mkQuaternion {num} _ _ _ _.
Arguments _x {num} _.
Arguments _y {num} _.
Arguments _z {num} _.
Arguments _w {num} _.

(** [Object3D] (and its subclasses [Mesh], [GridHelper]): the fields the
    program reads or writes. *)
Record Object3D (num : Type) := mkObject3D {
  name : string;
  position : Vector3 num;
  quaternion : Quaternion num
}.
Arguments mkObject3D {num} _ _ _.
Arguments name {num} _.
Arguments position {num} _.
Arguments quaternion {num} _.

(** [Quaternion.slerp(qb, t)] is trigonometric; it is a parameter. *)
Class Slerp (num : Type) := slerp : Quaternion num → Quaternion num → num → Quaternion num.

Section Math.
Context {num : Type} {N : Number num}.

(** [new Vector3()], [new Quaternion()] *)
Definition Vector3_new : Vector3 num := mkVector3 num_zero num_zero num_zero.
Definition Quaternion_new : Quaternion num := mkQuaternion num_zero num_zero num_zero num_one.

(** [new Object3D()], [new Mesh(geometry, material)]: no name, at the
    origin, not rotated. *)
Definition Object3D_new : Object3D num := mkObject3D "" Vector3_new Quaternion_new.

(** [Vector3.lerp(v, alpha)]:
    [this.x += (v.x - this.x) * alpha], and the same for [y] and [z]. *)
Definition lerp (this v : Vector3 num) (alpha : num) : Vector3 num :=
  mkVector3 (num_add (x this) (num_mul (num_sub (x v) (x this)) alpha))
            (num_add (y this) (num_mul (num_sub (y v) (y this)) alpha))
            (num_add (z this) (num_mul (num_sub (z v) (z this)) alpha)).

Definition set_name (n : string) (o : Object3D num) : Object3D num :=
  mkObject3D n (position o) (quaternion o).
Definition set_position (p : Vector3 num) (o : Object3D num) : Object3D num :=
  mkObject3D (name o) p (quaternion o).
Definition set_quaternion (q : Quaternion num) (o : Object3D num) : Object3D num :=
  mkObject3D (name o) (position o) q.

End Math.

(** The scene graph.  The scene is an object named [""]; its children are
    references into the store and have no children of their own. *)
Section Graph.
Context {num : Type}.

Inductive Ref := TheScene | Child (r : nat).

Definition named (store : list (Object3D num)) (id : string) (r : nat) : Prop :=
  name <$> store !! r = Some id.

#[export] Instance named_dec store id r : Decision (named store id r).
Proof. unfold named. apply _. Defined.

(** [Object3D.getObjectByName(name)] on the scene: the scene itself when
    its own name matches, otherwise the first child of that name,
    otherwise [undefined]. *)
Definition getObjectByName (store : list (Object3D num)) (children : list nat)
    (id : string) : option Ref :=
  if decide (id = "") then Some TheScene
  else (λ ir, Child ir.2) <$> list_find (named store id) children.

(** [Array.indexOf] *)
Definition indexOf (r : nat) (children : list nat) : option nat :=
  fst <$> list_find (λ r', r' = r) children.

(** [Object3D.remove(object)] on the scene: [indexOf] then [splice];
    nothing happens when the object is [undefined] or not a child. *)
Definition remove (o : option Ref) (children : list nat) : list nat :=
  match o with
  | Some (Child r) =>
      match indexOf r children with
      | Some i => delete i children
      | None => children
      end
  | _ => children
  end.

(** [Object3D.add(object)] for an object that has no parent yet. *)
Definition add (r : nat) (children : list nat) : list nat := children ++ [r].

End Graph.

End THREE.

Import THREE.

(** ** Messages *)

(** One entry [clients[c]] of an inbound [clients] batch:
    [{ t, p?, q? }].  A field that is missing (or falsy) is [None]. *)
Module Payload.
Record msg (num : Type) := mk { t : num; p : option (Vector3 num); q : option (Quaternion num) }.
Arguments mk {num} _ _ _.
Arguments t {num} _.
Arguments p {num} _.
Arguments q {num} _.
End Payload.

(** The outbound [update] message [{ t, p, q }]. *)
Module Update.
Record msg (num : Type) := mk { t : num; p : Vector3 num; q : Quaternion num }.
Arguments mk {num} _ _ _.
Arguments t {num} _.
Arguments p {num} _.
Arguments q {num} _.
End Update.

(** ** class SocketHandler *)

(** The fields of the handler, followed by the world it acts on: the
    object store, the children of the scene, the [pingStats] element, the
    intervals registered with [setInterval], the messages given to
    [socket.emit] and the lines written with [console.log]. *)
Record SocketHandler (num : Type) := mkSocketHandler {
  clientCubes : gmap string nat;
  positions : gmap string (Vector3 num);
  quaternions : gmap string (Quaternion num);
  myId : string;
  timestamp : num;
  object : nat;
  store : list (Object3D num);
  scene : list nat;
  pingStats : string;
  intervals : list Z;
  emitted : list (Update.msg num);
  console : list string
}.
Arguments mkSocketHandler {num} _ _ _ _ _ _ _ _ _ _ _ _.
Arguments clientCubes {num} _.
Arguments positions {num} _.
Arguments quaternions {num} _.
Arguments myId {num} _.
Arguments timestamp {num} _.
Arguments object {num} _.
Arguments store {num} _.
Arguments scene {num} _.
Arguments pingStats {num} _.
Arguments intervals {num} _.
Arguments emitted {num} _.
Arguments console {num} _.

(** *** Objects used as dictionaries *)

(** The names of the properties of [Object.prototype], which every object
    created by [{}] inherits.  Eleven hold functions; [__proto__] is an
    accessor whose getter gives the prototype of the object and whose
    setter replaces it. *)
Definition Object_prototype : list string :=
  ["constructor"; "__defineGetter__"; "__defineSetter__"; "hasOwnProperty";
   "__lookupGetter__"; "__lookupSetter__"; "isPrototypeOf"; "propertyIsEnumerable";
   "toString"; "valueOf"; "__proto__"; "toLocaleString"].

(** [dict[c]] read for its truth value, for a dictionary created by [{}]
    in which objects were written ([dict]): what was written under [c] is
    found first; otherwise [Object.prototype] is asked, and what it holds
    (a function, or the prototype itself for [__proto__]) is truthy. *)
Definition truthy {A : Type} (dict : gmap string A) (c : string) : bool :=
  bool_decide (is_Some (dict !! c)) || bool_decide (c ∈ Object_prototype).

Section SocketHandler.
Context {num : Type} {N : Number num} {L : Slerp num} {T : ToString num}.

Abbreviation State := (SocketHandler num).

Definition set_clientCubes (v : gmap string nat) (s : State) : State :=
  mkSocketHandler v (positions s) (quaternions s) (myId s) (timestamp s) (object s)
    (store s) (scene s) (pingStats s) (intervals s) (emitted s) (console s).
Definition set_positions (v : gmap string (Vector3 num)) (s : State) : State :=
  mkSocketHandler (clientCubes s) v (quaternions s) (myId s) (timestamp s) (object s)
    (store s) (scene s) (pingStats s) (intervals s) (emitted s) (console s).
Definition set_quaternions (v : gmap string (Quaternion num)) (s : State) : State :=
  mkSocketHandler (clientCubes s) (positions s) v (myId s) (timestamp s) (object s)
    (store s) (scene s) (pingStats s) (intervals s) (emitted s) (console s).
Definition set_myId (v : string) (s : State) : State :=
  mkSocketHandler (clientCubes s) (positions s) (quaternions s) v (timestamp s) (object s)
    (store s) (scene s) (pingStats s) (intervals s) (emitted s) (console s).
Definition set_timestamp (v : num) (s : State) : State :=
  mkSocketHandler (clientCubes s) (positions s) (quaternions s) (myId s) v (object s)
    (store s) (scene s) (pingStats s) (intervals s) (emitted s) (console s).
Definition set_store (v : list (Object3D num)) (s : State) : State :=
  mkSocketHandler (clientCubes s) (positions s) (quaternions s) (myId s) (timestamp s) (object s)
    v (scene s) (pingStats s) (intervals s) (emitted s) (console s).
Definition set_scene (v : list nat) (s : State) : State :=
  mkSocketHandler (clientCubes s) (positions s) (quaternions s) (myId s) (timestamp s) (object s)
    (store s) v (pingStats s) (intervals s) (emitted s) (console s).
Definition set_pingStats (v : string) (s : State) : State :=
  mkSocketHandler (clientCubes s) (positions s) (quaternions s) (myId s) (timestamp s) (object s)
    (store s) (scene s) v (intervals s) (emitted s) (console s).
Definition set_intervals (v : list Z) (s : State) : State :=
  mkSocketHandler (clientCubes s) (positions s) (quaternions s) (myId s) (timestamp s) (object s)
    (store s) (scene s) (pingStats s) v (emitted s) (console s).
Definition set_emitted (v : list (Update.msg num)) (s : State) : State :=
  mkSocketHandler (clientCubes s) (positions s) (quaternions s) (myId s) (timestamp s) (object s)
    (store s) (scene s) (pingStats s) (intervals s) v (console s).
Definition set_console (v : list string) (s : State) : State :=
  mkSocketHandler (clientCubes s) (positions s) (quaternions s) (myId s) (timestamp s) (object s)
    (store s) (scene s) (pingStats s) (intervals s) (emitted s) v.

(** [constructor(scene, object)]: empty dictionaries, [myId = ''],
    [timestamp = 0]; nothing registered, emitted or logged yet. *)
Definition SocketHandler_new (objects : list (Object3D num)) (children : list nat)
    (obj : nat) (html : string) : State :=
  mkSocketHandler ∅ ∅ ∅ "" num_zero obj objects children html [] [] [].

(** [new Main()]: the scene holds the grid helper and the local object,
    both unnamed; the grid sits at [grid], the local object at the random
    place [local]. *)
Definition Main (grid local : Vector3 num) (html : string) : State :=
  SocketHandler_new
    [set_position grid Object3D_new; set_position local Object3D_new] [0; 1]%nat 1%nat html.

(** *** handleClients *)

(** The body of the [forEach] of [handleClients] for the key [c], with
    [now] the value of [Date.now()] in this iteration.  The local
    [pingStatsHtml] is threaded next to the state. *)
Definition handleClient (now : num) (c : string) (m : Payload.msg num)
    (acc : string * State) : string * State :=
  let s := set_timestamp now acc.2 in
  let pingStatsHtml :=
    acc.1 +:+ c +:+ " " +:+ toString (num_sub (timestamp s) (Payload.t m)) +:+ "ms<br/>" in
  if negb (truthy (clientCubes s) c) then
    (* new THREE.Mesh(...); .name = c; this.scene.add(...) *)
    let r := length (store s) in
    let s := set_store (store s ++ [set_name c Object3D_new]) s in
    let s := set_clientCubes (<[c := r]> (clientCubes s)) s in
    (pingStatsHtml, set_scene (add r (scene s)) s)
  else
    let s := match Payload.p m with
             | Some v => set_positions (<[c := v]> (positions s)) s
             | None => s
             end in
    let s := match Payload.q m with
             | Some v => set_quaternions (<[c := v]> (quaternions s)) s
             | None => s
             end in
    (pingStatsHtml, s).

(** [Object.keys(clients).forEach(...)]: the batch is the list of its
    entries in key order; [now i] is [Date.now()] in iteration [i]. *)
Fixpoint forEach_client (now : nat → num) (i : nat) (clients : list (string * Payload.msg num))
    (acc : string * State) : string * State :=
  match clients with
  | [] => acc
  | (c, m) :: rest => forEach_client now (S i) rest (handleClient (now i) c m acc)
  end.

Definition handleClients (now : nat → num) (clients : list (string * Payload.msg num))
    (s : State) : State :=
  let acc := forEach_client now 0 clients ("Socket Ping Stats<br/><br/>", s) in
  set_pingStats acc.1 acc.2.

(** *** handleRemoveClient *)

Definition handleRemoveClient (id : string) (s : State) : State :=
  set_scene (remove (getObjectByName (store s) (scene s) id) (scene s)) s.

(** *** updateClientCubes *)

(** The body of the [forEach] for the key [c] whose mesh is [r]. *)
Definition updateClientCube (s : State) (objects : list (Object3D num))
    (cr : string * nat) : list (Object3D num) :=
  let objects :=
    match positions s !! cr.1 with
    | Some v => alter (λ o, set_position (lerp (position o) v num_tenth) o) cr.2 objects
    | None => objects
    end in
  match quaternions s !! cr.1 with
  | Some v => alter (λ o, set_quaternion (slerp (quaternion o) v num_tenth) o) cr.2 objects
  | None => objects
  end.

(** [Object.keys(this.clientCubes).forEach(...)].  The keys are visited in
    the order of [map_to_list]; distinct keys hold distinct meshes
    ([wf_meshes_NoDup]), so the order does not show in the result. *)
Definition updateClientCubes (s : State) : State :=
  set_store (foldl (updateClientCube s) (store s) (map_to_list (clientCubes s))) s.

(** *** setupSocketEvents and the callbacks of the run time *)

(** The callback given to [setInterval]: one [update] message with the
    pose of the local object as it is now. *)
Definition publish (now : num) (s : State) : State :=
  match store s !! object s with
  | Some o => set_emitted (emitted s ++ [Update.mk now (position o) (quaternion o)]) s
  | None => s
  end.

(** What the run time can deliver: the five socket events, the firing of
    the [k]-th registered interval, an animation frame, and an edit of the
    local object through the GUI. *)
Inductive Event :=
  | on_connect
  | on_disconnect (message : string)
  | on_id (id : string)
  | on_clients (now : nat → num) (clients : list (string * Payload.msg num))
  | on_removeClient (id : string)
  | on_interval (k : nat) (now : num)
  | on_animate
  | on_gui (p : Vector3 num) (q : Quaternion num).

Definition dispatch (e : Event) (s : State) : State :=
  match e with
  | on_connect => set_console (console s ++ ["connect"]) s
  | on_disconnect message => set_console (console s ++ ["disconnect " +:+ message]) s
  | on_id id => set_intervals (intervals s ++ [50]) (set_myId id s)
  | on_clients now clients => handleClients now clients s
  | on_removeClient id => handleRemoveClient id s
  | on_interval k now =>
      match intervals s !! k with
      | Some _ => publish now s
      | None => s
      end
  | on_animate => updateClientCubes s
  | on_gui p q =>
      set_store (alter (λ o, set_quaternion q (set_position p o)) (object s) (store s)) s
  end.

Definition run (es : list Event) (s : State) : State := foldl (flip dispatch) s es.

(** What one frame makes of the mesh [o] of peer [c]. *)
Definition interpolated (s : State) (c : string) (o : Object3D num) : Object3D num :=
  mkObject3D (name o)
    match positions s !! c with
    | Some v => lerp (position o) v num_tenth
    | None => position o
    end
    match quaternions s !! c with
    | Some v => slerp (quaternion o) v num_tenth
    | None => quaternion o
    end.

(** The states the program can be in. *)
Inductive reachable : State → Prop :=
  | reachable_Main grid local html : reachable (Main grid local html)
  | reachable_dispatch e s : reachable s → reachable (dispatch e s).

End SocketHandler.

(** ** What the claims observe *)

Section Observations.
Context {num : Type}.

(** The children of the scene that are named [c]: the visible proxies of
    peer [c]. *)
Definition proxies (s : SocketHandler num) (c : string) : list nat :=
  filter (named (store s) c) (scene s).

(** The objects named [c] that were ever created. *)
Definition meshes (s : SocketHandler num) (c : string) : list (Object3D num) :=
  filter (λ o, name o = c) (store s).

(** [this.clientCubes[c].position] and [.quaternion] *)
Definition cubePosition (s : SocketHandler num) (c : string) : option (Vector3 num) :=
  r ← clientCubes s !! c; position <$> store s !! r.
Definition cubeQuaternion (s : SocketHandler num) (c : string) : option (Quaternion num) :=
  r ← clientCubes s !! c; quaternion <$> store s !! r.

(** The invariant of the reachable states. *)
Record wf (s : SocketHandler num) : Prop := mk_wf {
  (** the mesh of a registered peer exists and carries the peer's name *)
  wf_cube : ∀ c r, clientCubes s !! c = Some r → named (store s) c r;
  (** no key of [clientCubes] is a name of [Object.prototype] *)
  wf_own : ∀ c, is_Some (clientCubes s !! c) → c ∉ Object_prototype;
  (** targets are only stored for registered peers and under names of
      [Object.prototype] *)
  wf_positions : ∀ c, is_Some (positions s !! c) →
                      is_Some (clientCubes s !! c) ∨ c ∈ Object_prototype;
  wf_quaternions : ∀ c, is_Some (quaternions s !! c) →
                        is_Some (clientCubes s !! c) ∨ c ∈ Object_prototype;
  (** the children of the scene exist, and none is listed twice *)
  wf_scene : Forall (λ r, (r < length (store s))%nat) (scene s);
  wf_scene_NoDup : NoDup (scene s);
  (** a named child is the mesh registered under its name *)
  wf_named : ∀ r c, r ∈ scene s → named (store s) c r → c ≠ "" → clientCubes s !! c = Some r;
  (** the local object exists *)
  wf_object : (object s < length (store s))%nat
}.

(** One or more iterations of [handleClients] seen from peer [c]: the
    records of [c] are kept, *)
Record keeps (c : string) (s s' : SocketHandler num) : Prop := mk_keeps {
  keeps_clientCubes : clientCubes s' !! c = clientCubes s !! c;
  keeps_positions : positions s' !! c = positions s !! c;
  keeps_quaternions : quaternions s' !! c = quaternions s !! c
}.

(** and the store and the scene only grow, by objects that are not named
    [c]. *)
Record grows (c : string) (s s' : SocketHandler num) : Prop := mk_grows {
  grows_store : ∃ new, store s' = store s ++ new ∧ Forall (λ o, name o ≠ c) new;
  grows_scene : ∃ new, scene s' = scene s ++ new
      ∧ Forall (λ r, (length (store s) ≤ r)%nat ∧ (r < length (store s'))%nat
                     ∧ ¬ named (store s') c r) new
}.

End Observations.

(** The callback of the [id] event is the only one that starts publishing. *)
Definition is_on_id {num : Type} (e : @Event num) : bool :=
  match e with on_id _ => true | _ => false end.
Definition is_on_interval {num : Type} (e : @Event num) : bool :=
  match e with on_interval _ _ => true | _ => false end.

(** The firings of the [k]-th interval at the times [nows]. *)
Definition firings {num : Type} (k : nat) (nows : list num) : list (@Event num) :=
  on_interval k <$> nows.

(** A linear blend of the components: one interpolation to run the
    handler with on concrete inputs. *)
Definition blend {num : Type} `{Number num} : Slerp num := λ qa qb t,
  mkQuaternion (num_add (_x qa) (num_mul (num_sub (_x qb) (_x qa)) t))
               (num_add (_y qa) (num_mul (num_sub (_y qb) (_y qa)) t))
               (num_add (_z qa) (num_mul (num_sub (_z qb) (_z qa)) t))
               (num_add (_w qa) (num_mul (num_sub (_w qb) (_w qa)) t)).

(** ** Binary64 numbers measured *)

(** The rational number a finite binary64 number is. *)
Definition F2Q (f : float) : Q :=
  match Prim2SF f with
  | S754_finite s m e => ((if s then -1 else 1) * inject_Z (Z.pos m) * 2 ^ e)%Q
  | _ => 0%Q
  end.

(** [r] is finite and within the relative error [2^-53] of [exact]: what
    rounding to nearest gives when the operation neither overflows nor
    underflows. *)
Definition rounded (exact : Q) (r : float) : bool :=
  is_finite r && Qle_bool (Qabs (F2Q r - exact)) (Qabs exact * (1 # 2 ^ 53))%Q.

(** One coordinate of [Vector3.lerp(v, 0.1)], from [a] toward [t], goes
    steadily: [a] and [t] are finite; each of the three operations of
    [a + (t - a) * 0.1] is [rounded], and the sum is no farther from the
    exact sum than [a] is; and [a] is at [t] or farther from it than the
    tolerance [2^-49 |a|]. *)
Definition steady1 (a t : float) : bool :=
  let d1 := num_sub t a in
  let d2 := num_mul d1 num_tenth in
  let a' := num_add a d2 in
  is_finite a && is_finite t
  && rounded (F2Q t - F2Q a) d1
  && rounded (F2Q d1 * F2Q num_tenth) d2
  && rounded (F2Q a + F2Q d2) a'
  && Qle_bool (Qabs (F2Q a' - (F2Q a + F2Q d2))) (Qabs (F2Q d2))
  && (Qeq_bool (F2Q t) (F2Q a)
      || Qle_bool (Qabs (F2Q a)) (inject_Z (2 ^ 49) * Qabs (F2Q t - F2Q a))%Q).

Definition steady (p v : Vector3 float) : bool :=
  steady1 (x p) (x v) && steady1 (y p) (y v) && steady1 (z p) (z v).

(** The square of the distance from [p] to [v], and [Vector3.distanceTo]. *)
Definition distanceToSquared (p v : Vector3 float) : Q :=
  ((F2Q (x p) - F2Q (x v)) * (F2Q (x p) - F2Q (x v))
   + (F2Q (y p) - F2Q (y v)) * (F2Q (y p) - F2Q (y v))
   + (F2Q (z p) - F2Q (z v)) * (F2Q (z p) - F2Q (z v)))%Q.
Definition distanceTo (p v : Vector3 float) : R := sqrt (Q2R (distanceToSquared p v)).

(** [c] lies between [a] and [b]. *)
Definition between (a b c : float) : Prop :=
  (F2Q a <= F2Q c <= F2Q b)%Q ∨ (F2Q b <= F2Q c <= F2Q a)%Q.

(** On binary64: frame [n + 1] moves the mesh of [c] up along [x], and
    not as far as [bound]. *)
Definition climbs {L : Slerp float} (s : SocketHandler float) (c : string) (bound : float)
    (n : nat) : bool :=
  match cubePosition (Nat.iter n updateClientCubes s) c,
        cubePosition (Nat.iter (S n) updateClientCubes s) c with
  | Some p, Some p' => PrimFloat.ltb (x p) (x p') && PrimFloat.ltb (x p') bound
  | _, _ => false
  end.

(** On binary64: frame [n + 1] finds the mesh of [c] going steadily toward
    [v]. *)
Definition steady_frame {L : Slerp float} (s : SocketHandler float) (c : string)
    (v : Vector3 float) (n : nat) : bool :=
  match cubePosition (Nat.iter n updateClientCubes s) c with
  | Some p => steady p v
  | None => false
  end.

(** ** Sample inputs (binary64) *)

Module Sample.

Definition grid : Vector3 float := mkVector3 0%float (-0.5)%float 0%float.
Definition local : Vector3 float := mkVector3 1%float 0%float (-1)%float.
Definition upright : Quaternion float := mkQuaternion 0%float 0%float 0%float 1%float.

(** The integer a binary64 number is, when it is one. *)
Definition integer (f : float) : option Z :=
  match Prim2SF f with
  | S754_zero _ => Some 0
  | S754_finite s m e =>
      let n := if s then Z.neg m else Z.pos m in
      if (0 <=? e)%Z then Some (n * 2 ^ e)
      else if (n mod 2 ^ (- e) =? 0)%Z then Some (n / 2 ^ (- e)) else None
  | _ => None
  end.

(** A [Number::toString] to run the handler with on concrete inputs: the
    decimal digits of an integer below [10^21], as the sample runs print;
    no digits for other numbers. *)
Definition digits : ToString float := λ f,
  match integer f with
  | Some n => if (Z.abs n <? 10 ^ 21)%Z then pretty n else "?"
  | None => "?"
  end.

(** The program after [new Main()]. *)
Definition boot : SocketHandler float := Main grid local "".

(** [Date.now()] reads [t] all through one handler call. *)
Definition clock (t : float) : nat → float := λ _, t.

(** [{ "p1": { t: 100, p: (0,0,0), q: (0,0,0,1) } }] *)
Definition batch1 : list (string * Payload.msg float) :=
  [("p1", Payload.mk 100%float (Some (mkVector3 0%float 0%float 0%float)) (Some upright))].
(** [{ "p1": { t: 150, p: (2,0,0), q: (0,0,0,1) } }] *)
Definition batch2 : list (string * Payload.msg float) :=
  [("p1", Payload.mk 150%float (Some (mkVector3 2%float 0%float 0%float)) (Some upright))].
(** The scenario of the specification: ["p1"] seen twice, its mesh at
    [(0,0,0)] and its target at [(2,0,0)]. *)
Definition met {T : ToString float} : SocketHandler float :=
  handleClients (clock 160) batch2 (handleClients (clock 120) batch1 boot).

(** [{ "abc": { t: 900, p: (1,0,0) } }] and [{ "abc": { t: 1000 } }] *)
Definition batch_abc : list (string * Payload.msg float) :=
  [("abc", Payload.mk 900%float (Some (mkVector3 1%float 0%float 0%float)) None)].
Definition batch_abc_bare : list (string * Payload.msg float) :=
  [("abc", Payload.mk 1000%float None None)].

(** [{ "me": { t: 5, p: (1,0,-1) } }]: a batch that holds the local
    identifier once the [id] event has assigned ["me"]. *)
Definition batch_me : list (string * Payload.msg float) :=
  [("me", Payload.mk 5%float (Some local) None)].

(** [{ "constructor": { t: 100, p: (1,1,1) } }]: a peer whose identifier
    is the name of a property of [Object.prototype]. *)
Definition batch_constructor : list (string * Payload.msg float) :=
  [("constructor", Payload.mk 100%float (Some (mkVector3 1%float 1%float 1%float)) None)].

(** What happens before the [id] event in one run. *)
Definition prelude : list (@Event float) :=
  [on_connect; on_clients (clock 120) batch1; on_animate; on_interval 0 130%float;
   on_removeClient "p1"; on_gui local upright].

(** About [1.7e308] and its negative: targets so far apart that their
    difference is no binary64 number. *)
Definition far : float := 0x1.e42d130773b76p+1023%float.
Definition batch_far : list (string * Payload.msg float) :=
  [("p1", Payload.mk 200%float (Some (mkVector3 far 0%float 0%float)) None)].
Definition batch_far_back : list (string * Payload.msg float) :=
  [("p1", Payload.mk 300%float (Some (mkVector3 (- far)%float 0%float 0%float)) None)].

(** A peer is sent far out, and called back to the other side after one
    frame. *)
Definition overflow : list (@Event float) :=
  [on_clients (clock 120) batch1; on_clients (clock 220) batch_far; on_animate;
   on_clients (clock 320) batch_far_back].

End Sample.

(** ** Further observations *)

Section Census.
Context {num : Type}.

(** The objects the program ever creates: the grid helper and the local
    object, both unnamed, and after them one mesh for each key of
    [clientCubes]. *)
Record counted (s : SocketHandler num) : Prop := mk_counted {
  counted_object : object s = 1%nat;
  counted_grid : named (store s) "" 0;
  counted_local : named (store s) "" 1;
  counted_length : length (store s) = (2 + size (clientCubes s))%nat;
  counted_ref : ∀ c r, clientCubes s !! c = Some r → (2 ≤ r)%nat;
  counted_mesh : ∀ r o, store s !! r = Some o → (2 ≤ r)%nat →
                        clientCubes s !! name o = Some r
}.

(** From [s] to [s'] nothing of the registry is lost: the keys of
    [clientCubes] keep their objects, stored targets stay stored, and the
    objects of the store stay where they are, under their names. *)
Record persists (s s' : SocketHandler num) : Prop := mk_persists {
  persists_clientCubes : clientCubes s ⊆ clientCubes s';
  persists_positions : ∀ c, is_Some (positions s !! c) → is_Some (positions s' !! c);
  persists_quaternions : ∀ c, is_Some (quaternions s !! c) → is_Some (quaternions s' !! c);
  persists_store : ∀ r o, store s !! r = Some o →
                          ∃ o', store s' !! r = Some o' ∧ name o' = name o
}.

(** The lines [handleClients] appends to the heading of the [pingStats]
    text, for the entries of a batch from iteration [i] on. *)
Fixpoint pingLines {N : Number num} {T : ToString num} (now : nat → num) (i : nat)
    (clients : list (string * Payload.msg num)) : string :=
  match clients with
  | [] => ""
  | (c, m) :: rest =>
      (c +:+ " " +:+ toString (num_sub (now i) (Payload.t m)) +:+ "ms<br/>")
      +:+ pingLines now (S i) rest
  end.

(** The identifier an event assigns, when it is an [id] event. *)
Definition assigned (e : @Event num) : option string :=
  match e with on_id id => Some id | _ => None end.

Definition is_on_gui (e : @Event num) : bool :=
  match e with on_gui _ _ => true | _ => false end.

End Census.

(** More sample inputs. *)
Module More.

(** What may follow a removal: the peer is seen again, frames pass, the
    publisher fires. *)
Definition later : list (@Event float) :=
  [on_clients (Sample.clock 300) Sample.batch2; on_animate;
   on_interval 0 310%float; on_clients (Sample.clock 350) Sample.batch2; on_animate].

(** A run without an edit through the GUI, in which a batch holds the
    local identifier. *)
Definition hands_off : list (@Event float) :=
  [on_clients (Sample.clock 20) Sample.batch_me; on_animate;
   on_removeClient "p1"; on_interval 0 30%float; on_animate].

(** What may follow the [id] event: batches, frames, a removal, an edit,
    firings in between. *)
Definition busy : list (@Event float) :=
  [on_interval 0 400%float; on_clients (Sample.clock 410) Sample.batch1; on_animate;
   on_interval 0 450%float; on_removeClient "p1"; on_gui Sample.grid Sample.upright;
   on_connect].

End More.

(** ** Proof steps used more than once *)

(** Is [c0] the key [c] that was just written? *)
Ltac case_key c0 c :=
  destruct (decide (c0 = c)) as [->|?];
  [rewrite ?lookup_insert_eq | rewrite ?lookup_insert_ne by done].

(** A batch with one entry: its keys differ, and the entry is in it. *)
Ltac one_entry := first [apply NoDup_singleton | by left].

Create HintDb frames.

(** * Properties *)

Section Handlers.
Context {num : Type} {N : Number num} {T : ToString num}.

Implicit Types (s : SocketHandler num) (c id : string) (m : Payload.msg num) (r : nat).

Lemma set_scene_id s : set_scene (scene s) s = s.
Proof. by destruct s. Qed.

(** *** Dictionaries *)

Lemma truthy_false {A} (dict : gmap string A) c :
  truthy dict c = false ↔ dict !! c = None ∧ c ∉ Object_prototype.
Proof.
  unfold truthy. rewrite orb_false_iff, !bool_decide_eq_false, <-eq_None_not_Some. tauto.
Qed.

Lemma truthy_true {A} (dict : gmap string A) c :
  truthy dict c = true ↔ is_Some (dict !! c) ∨ c ∈ Object_prototype.
Proof. unfold truthy. by rewrite orb_true_iff, !bool_decide_eq_true. Qed.

Lemma truthy_own {A} (dict : gmap string A) c (a : A) : dict !! c = Some a → truthy dict c = true.
Proof. intros Hc. apply truthy_true. left. by exists a. Qed.

(** The scene, named [""], is not mistaken for such a name. *)
Lemma empty_not_inherited : "" ∉ Object_prototype.
Proof. apply (bool_decide_unpack _). by vm_compute. Qed.

(** *** One iteration of [handleClients] *)

(** The key is new and no name of [Object.prototype]: the [if] branch. *)
Lemma handleClient_unknown now c m html s :
  clientCubes s !! c = None → c ∉ Object_prototype →
  handleClient now c m (html, s) =
    (html +:+ c +:+ " " +:+ toString (num_sub now (Payload.t m)) +:+ "ms<br/>",
     set_scene (scene s ++ [length (store s)])
       (set_clientCubes (<[c := length (store s)]> (clientCubes s))
          (set_store (store s ++ [set_name c Object3D_new]) (set_timestamp now s)))).
Proof.
  intros Hc Hp. unfold handleClient. simpl.
  by assert (truthy (clientCubes s) c = false) as -> by by apply truthy_false.
Qed.

(** Something is found under the key: the [else] branch. *)
Lemma handleClient_truthy now c m html s :
  truthy (clientCubes s) c = true →
  handleClient now c m (html, s) =
    (html +:+ c +:+ " " +:+ toString (num_sub now (Payload.t m)) +:+ "ms<br/>",
     let s1 := set_timestamp now s in
     let s2 := match Payload.p m with
               | Some v => set_positions (<[c := v]> (positions s1)) s1
               | None => s1
               end in
     match Payload.q m with
     | Some v => set_quaternions (<[c := v]> (quaternions s2)) s2
     | None => s2
     end).
Proof. intros Hc. unfold handleClient. simpl. by rewrite Hc. Qed.

Lemma handleClient_known now c m html s r :
  clientCubes s !! c = Some r →
  handleClient now c m (html, s) =
    (html +:+ c +:+ " " +:+ toString (num_sub now (Payload.t m)) +:+ "ms<br/>",
     let s1 := set_timestamp now s in
     let s2 := match Payload.p m with
               | Some v => set_positions (<[c := v]> (positions s1)) s1
               | None => s1
               end in
     match Payload.q m with
     | Some v => set_quaternions (<[c := v]> (quaternions s2)) s2
     | None => s2
     end).
Proof. intros Hc. apply handleClient_truthy. by eapply truthy_own. Qed.

(** The two branches. *)
Lemma handleClient_cases c s :
  (truthy (clientCubes s) c = true)
  ∨ (clientCubes s !! c = None ∧ c ∉ Object_prototype).
Proof.
  destruct (truthy (clientCubes s) c) eqn:Ht; [by left|]. right. by apply truthy_false.
Qed.

(** *** Filters over lists *)

Lemma filter_ext_Forall {A} (P Q : A → Prop) `{!∀ a, Decision (P a), !∀ a, Decision (Q a)}
    (l : list A) :
  Forall (λ a, P a ↔ Q a) l → filter P l = filter Q l.
Proof.
  induction 1 as [|a l Ha _ IH]; [done|].
  destruct (decide (P a)) as [HP|HP].
  - rewrite !filter_cons_True by tauto. by rewrite IH.
  - rewrite !filter_cons_False by tauto. exact IH.
Qed.

Lemma filter_none {A} (P : A → Prop) `{!∀ a, Decision (P a)} (l : list A) :
  Forall (λ a, ¬ P a) l → filter P l = [].
Proof.
  induction 1 as [|a l Ha _ IH]; [done|]. by rewrite filter_cons_False.
Qed.

(** *** What an iteration does to the records and objects of a peer *)

Lemma keeps_refl c s : keeps c s s.
Proof. by split. Qed.

Lemma keeps_trans c s1 s2 s3 : keeps c s1 s2 → keeps c s2 s3 → keeps c s1 s3.
Proof. intros [] []. split; congruence. Qed.

Lemma grows_same c s s' : store s' = store s → scene s' = scene s → grows c s s'.
Proof. intros Hs Hc. split; exists []; by rewrite app_nil_r. Qed.

Lemma grows_refl c s : grows c s s.
Proof. by apply grows_same. Qed.

Lemma grows_trans c s1 s2 s3 : grows c s1 s2 → grows c s2 s3 → grows c s1 s3.
Proof.
  intros [(n1 & S1 & F1) (k1 & K1 & G1)] [(n2 & S2 & F2) (k2 & K2 & G2)].
  split.
  - exists (n1 ++ n2). rewrite S2, S1, <-(assoc_L (++)). split; [done|].
    by apply Forall_app.
  - exists (k1 ++ k2). rewrite K2, K1, <-(assoc_L (++)). split; [done|].
    apply Forall_app; split.
    + eapply Forall_impl; [exact G1|]. intros r (Hlo & Hhi & Hn).
      split; [done|]. split.
      * rewrite S2, length_app. lia.
      * unfold named in *. by rewrite S2, lookup_app_l.
    + eapply Forall_impl; [exact G2|]. intros r (Hlo & Hhi & Hn).
      split; [|done]. rewrite S1, length_app in Hlo. lia.
Qed.

Lemma grows_lookup c s s' r o : grows c s s' → store s !! r = Some o → store s' !! r = Some o.
Proof. intros [(n & -> & _) _] Hr. by apply lookup_app_l_Some. Qed.

Lemma grows_length c s s' : grows c s s' → (length (store s) ≤ length (store s'))%nat.
Proof. intros [(n & -> & _) _]. rewrite length_app. lia. Qed.

Lemma grows_meshes c s s' : grows c s s' → meshes s' c = meshes s c.
Proof.
  intros [(n & Hn & Fn) _]. unfold meshes. rewrite Hn, filter_app.
  rewrite (filter_none _ n); [by rewrite app_nil_r|].
  eapply Forall_impl; [exact Fn|]. done.
Qed.

Lemma grows_proxies c s s' :
  Forall (λ r, (r < length (store s))%nat) (scene s) →
  grows c s s' → proxies s' c = proxies s c.
Proof.
  intros Hv [(n & Hn & _) (k & Hk & Fk)]. unfold proxies. rewrite Hk, filter_app.
  rewrite (filter_none _ k).
  - rewrite app_nil_r. apply filter_ext_Forall.
    eapply Forall_impl; [exact Hv|]. intros r Hr. unfold named.
    by rewrite Hn, lookup_app_l.
  - eapply Forall_impl; [exact Fk|]. intros r (_ & _ & Hr). exact Hr.
Qed.

Lemma handleClient_keeps now c c' m html s :
  c ≠ c' → keeps c s (handleClient now c' m (html, s)).2.
Proof.
  intros Hne. destruct (handleClient_cases c' s) as [Hc'|[Hc' Hp']].
  - rewrite handleClient_truthy by done. simpl.
    destruct (Payload.p m), (Payload.q m); simpl;
      split; simpl; rewrite ?lookup_insert_ne by done; done.
  - rewrite handleClient_unknown by done.
    split; simpl; rewrite ?lookup_insert_ne by done; done.
Qed.

Lemma handleClient_grows_truthy now c c' m html s :
  truthy (clientCubes s) c' = true → grows c s (handleClient now c' m (html, s)).2.
Proof.
  intros Hc'. rewrite handleClient_truthy by done. simpl.
  destruct (Payload.p m), (Payload.q m); by apply grows_same.
Qed.

Lemma handleClient_grows_known now c c' m html s r :
  clientCubes s !! c' = Some r → grows c s (handleClient now c' m (html, s)).2.
Proof. intros Hc'. apply handleClient_grows_truthy. by eapply truthy_own. Qed.

Lemma handleClient_grows now c c' m html s :
  c ≠ c' → grows c s (handleClient now c' m (html, s)).2.
Proof.
  intros Hne. destruct (handleClient_cases c' s) as [Hc'|[Hc' Hp']].
  - by apply handleClient_grows_truthy.
  - rewrite handleClient_unknown by done. split; simpl.
    + exists [set_name c' Object3D_new]. split; [done|].
      constructor; [|done]. simpl. congruence.
    + exists [length (store s)]. split; [done|].
      constructor; [|done]. split; [lia|]. split.
      * rewrite length_app. simpl. lia.
      * unfold named. rewrite lookup_app_r, Nat.sub_diag by lia. simpl. congruence.
Qed.

#[local] Hint Resolve keeps_refl grows_refl handleClient_keeps handleClient_grows : frames.

Lemma forEach_client_keeps now c clients : ∀ i acc,
  c ∉ (clients.*1) → keeps c acc.2 (forEach_client now i clients acc).2.
Proof.
  induction clients as [|[c' m] rest IH]; intros i [html s] Hnot; simpl;
    [auto with frames|].
  apply not_elem_of_cons in Hnot as [Hne Hnot].
  apply (keeps_trans _ _ (handleClient (now i) c' m (html, s)).2); auto with frames.
Qed.

Lemma forEach_client_grows now c clients : ∀ i acc,
  c ∉ (clients.*1) → grows c acc.2 (forEach_client now i clients acc).2.
Proof.
  induction clients as [|[c' m] rest IH]; intros i [html s] Hnot; simpl;
    [auto with frames|].
  apply not_elem_of_cons in Hnot as [Hne Hnot].
  apply (grows_trans _ _ (handleClient (now i) c' m (html, s)).2); auto with frames.
Qed.

Lemma forEach_client_app now l1 l2 : ∀ i acc,
  forEach_client now i (l1 ++ l2) acc =
  forEach_client now (i + length l1) l2 (forEach_client now i l1 acc).
Proof.
  induction l1 as [|[c m] l1 IH]; intros i acc; simpl.
  - by rewrite Nat.add_0_r.
  - rewrite IH. f_equal. lia.
Qed.

End Handlers.

(** ** The invariant *)

Section Invariant.
Context {num : Type} {N : Number num} {L : Slerp num} {T : ToString num}.

Implicit Types (s : SocketHandler num) (c id : string) (m : Payload.msg num) (r : nat).

Lemma named_app_l (objects new : list (Object3D num)) c r :
  (r < length objects)%nat → named (objects ++ new) c r ↔ named objects c r.
Proof. intros Hr. unfold named. by rewrite lookup_app_l. Qed.

Lemma named_lt (objects : list (Object3D num)) c r :
  named objects c r → (r < length objects)%nat.
Proof.
  unfold named. intros Hn. apply lookup_lt_is_Some.
  destruct (objects !! r); [eauto|done].
Qed.

Lemma named_snoc (objects : list (Object3D num)) o c :
  named (objects ++ [o]) c (length objects) ↔ name o = c.
Proof.
  unfold named. rewrite lookup_app_r, Nat.sub_diag by lia. simpl.
  split; congruence.
Qed.

Lemma wf_Main grid local html : wf (Main grid local html).
Proof.
  split; simpl; try done.
  - intros c [x Hx]. by rewrite lookup_empty in Hx.
  - intros c [x Hx]. by rewrite lookup_empty in Hx.
  - intros c [x Hx]. by rewrite lookup_empty in Hx.
  - repeat constructor.
  - apply NoDup_cons. split; [|apply NoDup_singleton].
    rewrite list_elem_of_singleton. lia.
  - intros r c Hr Hn Hc. unfold named in Hn.
    apply elem_of_cons in Hr as [->|Hr]; [simpl in Hn; congruence|].
    apply list_elem_of_singleton in Hr as ->. simpl in Hn. congruence.
  - lia.
Qed.

(** A target written under a key for which something is found. *)
Lemma insert_target {A} (dict : gmap string A) (cubes : gmap string nat) c (v : A) :
  truthy cubes c = true →
  (∀ c0, is_Some (dict !! c0) → is_Some (cubes !! c0) ∨ c0 ∈ Object_prototype) →
  ∀ c0, is_Some (<[c := v]> dict !! c0) → is_Some (cubes !! c0) ∨ c0 ∈ Object_prototype.
Proof.
  intros Hc%truthy_true Hdict c0.
  destruct (decide (c0 = c)) as [->|Hne]; [done|].
  rewrite lookup_insert_ne by done. apply Hdict.
Qed.

Lemma handleClient_wf now c m html s : wf s → wf (handleClient now c m (html, s)).2.
Proof.
  intros [Hcube Hown Hpos Hquat Hscene Hnodup Hnamed Hobj].
  destruct (handleClient_cases c s) as [Hc|[Hc Hp]].
  - rewrite handleClient_truthy by done. simpl.
    destruct (Payload.p m), (Payload.q m); split; simpl; try done;
      by apply insert_target.
  - rewrite handleClient_unknown by done.
    split; simpl.
    + intros c0 r0. case_key c0 c.
      * intros [= <-]. by apply named_snoc.
      * intros Hc0%Hcube. apply named_app_l; [by eapply named_lt|done].
    + intros c0. case_key c0 c; [done|apply Hown].
    + intros c0 [Hc0|Hc0]%Hpos; [left|by right]. by case_key c0 c.
    + intros c0 [Hc0|Hc0]%Hquat; [left|by right]. by case_key c0 c.
    + rewrite length_app. simpl. apply Forall_app. split.
      * eapply Forall_impl; [exact Hscene|]. simpl. lia.
      * constructor; [lia|done].
    + apply NoDup_app. split; [done|]. split; [|apply NoDup_singleton].
      intros r0 Hr0. rewrite list_elem_of_singleton.
      eapply Forall_forall in Hscene; [|exact Hr0]. simpl in Hscene. lia.
    + intros r0 c0 Hr0 Hn Hc0. apply elem_of_app in Hr0 as [Hr0|Hr0].
      * assert (r0 < length (store s))%nat as Hlt
          by (eapply Forall_forall in Hscene; [exact Hscene|exact Hr0]).
        apply named_app_l in Hn; [|done].
        specialize (Hnamed _ _ Hr0 Hn Hc0).
        rewrite lookup_insert_ne; [done|congruence].
      * apply list_elem_of_singleton in Hr0 as ->.
        apply named_snoc in Hn. simpl in Hn. subst c0.
        by rewrite lookup_insert_eq.
    + rewrite length_app. lia.
Qed.

Lemma forEach_client_wf now clients : ∀ i acc,
  wf acc.2 → wf (forEach_client now i clients acc).2.
Proof.
  induction clients as [|[c m] rest IH]; intros i [html s] Hwf; simpl; [done|].
  apply IH. by apply handleClient_wf.
Qed.

Lemma handleClients_wf now clients s : wf s → wf (handleClients now clients s).
Proof.
  intros Hwf. unfold handleClients.
  pose proof (forEach_client_wf now clients 0 ("Socket Ping Stats<br/><br/>", s) Hwf) as [].
  by split.
Qed.

(** [remove] takes children away and adds none. *)
Lemma remove_sublist (o : option Ref) (children : list nat) :
  remove o children `sublist_of` children.
Proof.
  destruct o as [[|r]|]; simpl; try done.
  destruct (indexOf r children); [apply sublist_delete|done].
Qed.

Lemma handleRemoveClient_wf id s : wf s → wf (handleRemoveClient id s).
Proof.
  intros [Hcube Hown Hpos Hquat Hscene Hnodup Hnamed Hobj].
  pose proof (remove_sublist (getObjectByName (store s) (scene s) id) (scene s)) as Hsub.
  split; simpl; try done.
  - apply Forall_forall. intros r Hr.
    eapply Forall_forall in Hscene; [exact Hscene|].
    eapply elem_of_sublist; [exact Hr | exact Hsub].
  - eapply sublist_NoDup; [exact Hnodup | exact Hsub].
  - intros r c Hr. apply Hnamed. eapply elem_of_sublist; [exact Hr | exact Hsub].
Qed.

(** Changing poses only keeps the invariant. *)
Lemma wf_poses s (objects : list (Object3D num)) :
  length objects = length (store s) →
  (∀ r, name <$> objects !! r = name <$> store s !! r) →
  wf s → wf (set_store objects s).
Proof.
  intros Hlen Hnames [Hcube Hown Hpos Hquat Hscene Hnodup Hnamed Hobj].
  split; simpl; try done.
  - intros c r Hc. unfold named. rewrite Hnames. by apply Hcube.
  - by rewrite Hlen.
  - intros r c Hr Hn. apply Hnamed; [done|]. unfold named in *. by rewrite <-Hnames.
  - by rewrite Hlen.
Qed.

Lemma alter_names (f : Object3D num → Object3D num) (objects : list (Object3D num)) r :
  (∀ o, name (f o) = name o) →
  ∀ r', name <$> alter f r objects !! r' = name <$> objects !! r'.
Proof.
  intros Hf r'. destruct (decide (r = r')) as [->|Hne].
  - rewrite list_lookup_alter_eq. destruct (objects !! r'); simpl; [|done].
    by rewrite Hf.
  - by rewrite list_lookup_alter_ne.
Qed.

Lemma updateClientCube_length s objects cr :
  length (updateClientCube s objects cr) = length objects.
Proof.
  unfold updateClientCube.
  destruct (positions s !! cr.1), (quaternions s !! cr.1); by rewrite ?length_alter.
Qed.

Lemma updateClientCube_names s objects cr r :
  name <$> updateClientCube s objects cr !! r = name <$> objects !! r.
Proof.
  unfold updateClientCube.
  destruct (positions s !! cr.1), (quaternions s !! cr.1);
    by rewrite ?alter_names.
Qed.

Lemma foldl_updateClientCube_length s l : ∀ objects,
  length (foldl (updateClientCube s) objects l) = length objects.
Proof.
  induction l as [|cr l IH]; intros objects; simpl; [done|].
  by rewrite IH, updateClientCube_length.
Qed.

Lemma foldl_updateClientCube_names s l r : ∀ objects,
  name <$> foldl (updateClientCube s) objects l !! r = name <$> objects !! r.
Proof.
  induction l as [|cr l IH]; intros objects; simpl; [done|].
  by rewrite IH, updateClientCube_names.
Qed.

Lemma updateClientCubes_wf s : wf s → wf (updateClientCubes s).
Proof.
  intros Hwf. apply wf_poses; [ | | done].
  - apply foldl_updateClientCube_length.
  - intros r. apply foldl_updateClientCube_names.
Qed.

Lemma publish_wf now s : wf s → wf (publish now s).
Proof. intros Hwf. unfold publish. destruct (store s !! object s); [|done]. by destruct Hwf. Qed.

Lemma dispatch_wf (e : Event) s : wf s → wf (dispatch e s).
Proof.
  intros Hwf. destruct e; simpl.
  - by destruct Hwf.
  - by destruct Hwf.
  - by destruct Hwf.
  - by apply handleClients_wf.
  - by apply handleRemoveClient_wf.
  - destruct (intervals s !! k); [by apply publish_wf|done].
  - by apply updateClientCubes_wf.
  - apply wf_poses; [apply length_alter | | done].
    intros r. by apply alter_names.
Qed.

Lemma reachable_run (es : list Event) s : reachable s → reachable (run es s).
Proof.
  intros Hs. induction es as [|e es IH] using rev_ind; [done|].
  unfold run. rewrite foldl_snoc. by apply reachable_dispatch.
Qed.

Lemma reachable_wf s : reachable s → wf s.
Proof.
  induction 1 as [grid local html | e s _ IH].
  - apply wf_Main.
  - by apply dispatch_wf.
Qed.

End Invariant.

(** ** A whole batch, seen from one of its keys *)

Section Batches.
Context {num : Type} {N : Number num} {T : ToString num}.

Implicit Types (s : SocketHandler num) (c id : string) (m : Payload.msg num) (r : nat).
Implicit Types (clients : list (string * Payload.msg num)).

Lemma batch_split clients c m :
  NoDup (clients.*1) → (c, m) ∈ clients →
  ∃ l1 l2, clients = l1 ++ (c, m) :: l2 ∧ (c ∉ l1.*1) ∧ (c ∉ l2.*1).
Proof.
  intros Hnd (l1 & l2 & ->)%list_elem_of_split. exists l1, l2. split; [done|].
  rewrite fmap_app, fmap_cons in Hnd. simpl in Hnd.
  apply NoDup_app in Hnd as (_ & Hl1 & Hl2%NoDup_cons). split; [|tauto].
  intros Hin. apply (Hl1 _ Hin). by left.
Qed.

(** The batch runs up to the entry of [c], handles it, and runs on; the
    iterations before and after are for other keys. *)
Lemma handleClients_at now clients s c m :
  NoDup (clients.*1) → (c, m) ∈ clients →
  ∃ i h1 s1 h3 s3,
    keeps c s s1 ∧ grows c s s1 ∧ (wf s → wf s1) ∧
    keeps c (handleClient (now i) c m (h1, s1)).2 s3 ∧
    grows c (handleClient (now i) c m (h1, s1)).2 s3 ∧
    handleClients now clients s = set_pingStats h3 s3.
Proof.
  intros Hnd Hin. destruct (batch_split _ _ _ Hnd Hin) as (l1 & l2 & -> & Hl1 & Hl2).
  unfold handleClients. rewrite forEach_client_app. simpl.
  set (hdr := "Socket Ping Stats<br/><br/>").
  pose proof (forEach_client_keeps now c l1 0 (hdr, s) Hl1) as K1.
  pose proof (forEach_client_grows now c l1 0 (hdr, s) Hl1) as G1.
  pose proof (forEach_client_wf now l1 0 (hdr, s)) as W1.
  destruct (forEach_client now 0 l1 (hdr, s)) as [h1 s1]. simpl in K1, G1, W1.
  set (acc2 := handleClient (now (length l1)) c m (h1, s1)).
  pose proof (forEach_client_keeps now c l2 (S (length l1)) acc2 Hl2) as K3.
  pose proof (forEach_client_grows now c l2 (S (length l1)) acc2 Hl2) as G3.
  destruct (forEach_client now (S (length l1)) l2 acc2) as [h3 s3] eqn:E3.
  exists (length l1), h1, s1, h3, s3. by split_and!.
Qed.

Lemma grows_pingStats c s s' html : grows c s s' → grows c s (set_pingStats html s').
Proof. intros G. eapply grows_trans; [exact G|]. by apply grows_same. Qed.

(** A key under which the handler finds something: nothing is created,
    and only the targets that are present change. *)
Lemma handleClients_truthy now clients s c m :
  NoDup (clients.*1) → (c, m) ∈ clients → truthy (clientCubes s) c = true →
  let s' := handleClients now clients s in
  clientCubes s' !! c = clientCubes s !! c
  ∧ positions s' !! c = match Payload.p m with Some v => Some v | None => positions s !! c end
  ∧ quaternions s' !! c = match Payload.q m with Some v => Some v | None => quaternions s !! c end
  ∧ grows c s s'.
Proof.
  intros Hnd Hin Hc s'. subst s'.
  destruct (handleClients_at now clients s c m Hnd Hin)
    as (i & h1 & s1 & h3 & s3 & K1 & G1 & _ & K3 & G3 & E).
  rewrite E. clear E.
  destruct K1 as [KC1 KP1 KQ1].
  assert (truthy (clientCubes s1) c = true) as Hc1.
  { apply truthy_true. apply truthy_true in Hc. by rewrite KC1. }
  pose proof (handleClient_grows_truthy (now i) c c m h1 s1 Hc1) as G2.
  rewrite handleClient_truthy in K3 by done.
  destruct K3 as [KC KP KQ]. simpl in KC, KP, KQ. simpl.
  split; [|split; [|split]].
  - rewrite KC. destruct (Payload.p m), (Payload.q m); simpl; congruence.
  - rewrite KP. destruct (Payload.p m), (Payload.q m); simpl;
      rewrite ?lookup_insert_eq; congruence.
  - rewrite KQ. destruct (Payload.p m), (Payload.q m); simpl;
      rewrite ?lookup_insert_eq; congruence.
  - apply grows_pingStats. eauto using grows_trans.
Qed.

(** A key the handler knows: only the targets that are present change. *)
Lemma handleClients_known now clients s c m r :
  NoDup (clients.*1) → (c, m) ∈ clients → clientCubes s !! c = Some r →
  let s' := handleClients now clients s in
  clientCubes s' !! c = Some r
  ∧ positions s' !! c = match Payload.p m with Some v => Some v | None => positions s !! c end
  ∧ quaternions s' !! c = match Payload.q m with Some v => Some v | None => quaternions s !! c end
  ∧ grows c s s'.
Proof.
  intros Hnd Hin Hc s'. subst s'.
  destruct (handleClients_truthy now clients s c m Hnd Hin (truthy_own _ _ _ Hc))
    as (HC & HP & HQ & G).
  split_and!; [congruence|done..].
Qed.

(** A key the handler does not know: one mesh named after it is created
    at the default pose and added to the scene; no target is stored. *)
Lemma handleClients_unknown now clients s c m :
  wf s → NoDup (clients.*1) → (c, m) ∈ clients →
  clientCubes s !! c = None → c ∉ Object_prototype →
  let s' := handleClients now clients s in
  ∃ r, (length (store s) ≤ r)%nat
    ∧ clientCubes s' !! c = Some r
    ∧ store s' !! r = Some (set_name c Object3D_new)
    ∧ meshes s' c = meshes s c ++ [set_name c Object3D_new]
    ∧ proxies s' c = proxies s c ++ [r]
    ∧ positions s' !! c = positions s !! c
    ∧ quaternions s' !! c = quaternions s !! c.
Proof.
  intros Hwf Hnd Hin Hc Hp s'. subst s'.
  destruct (handleClients_at now clients s c m Hnd Hin)
    as (i & h1 & s1 & h3 & s3 & K1 & G1 & W1 & K3 & G3 & E).
  rewrite E. clear E.
  specialize (W1 Hwf).
  assert (clientCubes s1 !! c = None) as Hc1 by (by rewrite (keeps_clientCubes _ _ _ K1)).
  pose proof (handleClient_wf (now i) c m h1 s1 W1) as W2.
  rewrite handleClient_unknown in K3, G3, W2 by done. simpl in K3, G3, W2.
  set (mesh := set_name c Object3D_new) in *.
  set (s2 := set_scene _ _) in *.
  destruct K1 as [KC1 KP1 KQ1], K3 as [KC3 KP3 KQ3].
  exists (length (store s1)).
  split; [by eapply grows_length|].
  split; [simpl; rewrite KC3; simpl; by rewrite lookup_insert_eq|].
  split; [simpl; eapply grows_lookup; [exact G3|]; simpl;
          by rewrite lookup_app_r, Nat.sub_diag by lia|].
  split; [|split; [|split]].
  - change (meshes (set_pingStats h3 s3) c) with (meshes s3 c).
    rewrite (grows_meshes _ _ _ G3), <-(grows_meshes _ _ _ G1).
    unfold meshes. simpl. rewrite filter_app. f_equal.
    by rewrite filter_cons_True.
  - change (proxies (set_pingStats h3 s3) c) with (proxies s3 c).
    rewrite (grows_proxies _ _ _ (wf_scene _ W2) G3).
    rewrite <-(grows_proxies _ _ _ (wf_scene _ Hwf) G1).
    unfold proxies. simpl. rewrite filter_app. f_equal.
    + apply filter_ext_Forall. eapply Forall_impl; [exact (wf_scene _ W1)|].
      intros r0 Hr0. by apply named_app_l.
    + rewrite filter_cons_True; [done|]. by apply named_snoc.
  - simpl. rewrite KP3. simpl. exact KP1.
  - simpl. rewrite KQ3. simpl. exact KQ1.
Qed.

End Batches.

(** ** The claims about [handleClients] *)

Section Claims_handleClients.
Context {num : Type} {N : Number num} {T : ToString num}.

Implicit Types (s : SocketHandler num) (c id : string) (m : Payload.msg num) (r : nat).
Implicit Types (clients : list (string * Payload.msg num)).

Lemma handleClient_myId now c m html s id :
  handleClient now c m (html, set_myId id s) =
  ((handleClient now c m (html, s)).1, set_myId id (handleClient now c m (html, s)).2).
Proof.
  unfold handleClient. simpl.
  destruct (truthy (clientCubes s) c); [|done].
  by destruct (Payload.p m), (Payload.q m).
Qed.

Lemma forEach_client_myId now clients id : ∀ i html s,
  forEach_client now i clients (html, set_myId id s) =
  ((forEach_client now i clients (html, s)).1,
   set_myId id (forEach_client now i clients (html, s)).2).
Proof.
  induction clients as [|[c m] rest IH]; intros i html s; simpl; [done|].
  rewrite handleClient_myId.
  destruct (handleClient (now i) c m (html, s)) as [html' s']. simpl. apply IH.
Qed.

Lemma handleClients_myId now clients s id :
  handleClients now clients (set_myId id s) = set_myId id (handleClients now clients s).
Proof. unfold handleClients. by rewrite forEach_client_myId. Qed.

Context {L : Slerp num}.


(** C4.  For a key that [clientCubes] already holds, a message without
    [p] leaves the stored target position as it was, and a message without
    [q] leaves the stored target orientation as it was. *)
Theorem C4_absent_field_retains_target s now clients c m r :
  NoDup (clients.*1) → (c, m) ∈ clients → clientCubes s !! c = Some r →
  (Payload.p m = None → positions (handleClients now clients s) !! c = positions s !! c)
  ∧ (Payload.q m = None →
       quaternions (handleClients now clients s) !! c = quaternions s !! c).
Proof.
  intros Hnd Hin Hc.
  destruct (handleClients_known now clients s c m r Hnd Hin Hc) as (_ & Hp & Hq & _).
  split; intros Hnone.
  - by rewrite Hp, Hnone.
  - by rewrite Hq, Hnone.
Qed.


End Claims_handleClients.

(** ** updateClientCubes *)

Section Advance.
Context {num : Type} {N : Number num} {L : Slerp num}.

Implicit Types (s : SocketHandler num) (c id : string) (r : nat).
Implicit Types (objects : list (Object3D num)).

(** One iteration is one in-place change of the mesh. *)
Lemma updateClientCube_alter s objects c r :
  updateClientCube s objects (c, r) = alter (interpolated s c) r objects.
Proof.
  unfold updateClientCube, interpolated. simpl.
  destruct (positions s !! c) as [v|], (quaternions s !! c) as [w|].
  - rewrite list_alter_alter_eq. by apply list_alter_ext.
  - by apply list_alter_ext.
  - by apply list_alter_ext.
  - symmetry. apply list_alter_id. by intros [].
Qed.

Lemma foldl_updateClientCube_other s (l : list (string * nat)) : ∀ objects r,
  r ∉ l.*2 → foldl (updateClientCube s) objects l !! r = objects !! r.
Proof.
  induction l as [|[c0 r0] l IH]; intros objects r Hr; simpl; [done|].
  rewrite fmap_cons in Hr. apply not_elem_of_cons in Hr as [Hne Hr]. simpl in Hne.
  rewrite IH by done. rewrite updateClientCube_alter.
  by rewrite list_lookup_alter_ne.
Qed.

Lemma foldl_updateClientCube_lookup s (l : list (string * nat)) : ∀ objects c r,
  NoDup (l.*2) → (c, r) ∈ l →
  foldl (updateClientCube s) objects l !! r = interpolated s c <$> objects !! r.
Proof.
  induction l as [|[c0 r0] l IH]; intros objects c r Hnd Hin; simpl.
  - by apply elem_of_nil in Hin.
  - rewrite fmap_cons in Hnd. apply NoDup_cons in Hnd as [Hr0 Hnd]. simpl in Hr0.
    apply elem_of_cons in Hin as [[= -> ->]|Hin].
    + rewrite foldl_updateClientCube_other by done.
      rewrite updateClientCube_alter. apply list_lookup_alter_eq.
    + rewrite (IH _ c r Hnd Hin). rewrite updateClientCube_alter.
      rewrite list_lookup_alter_ne; [done|].
      intros ->. apply Hr0. apply list_elem_of_fmap. by exists (c, r).
Qed.

(** Distinct keys hold distinct meshes. *)
Lemma wf_meshes_NoDup s : wf s → NoDup ((map_to_list (clientCubes s)).*2).
Proof.
  intros Hwf. apply NoDup_fmap_2_strong; [|apply NoDup_map_to_list].
  intros [c1 r1] [c2 r2] H1%elem_of_map_to_list H2%elem_of_map_to_list Heq.
  simpl in Heq. subst r2.
  apply (wf_cube _ Hwf) in H1, H2. unfold named in *. congruence.
Qed.

(** A frame interpolates the mesh of every registered peer once, *)
Lemma updateClientCubes_lookup s c r :
  wf s → clientCubes s !! c = Some r →
  store (updateClientCubes s) !! r = interpolated s c <$> store s !! r.
Proof.
  intros Hwf Hc. simpl. apply foldl_updateClientCube_lookup.
  - by apply wf_meshes_NoDup.
  - by apply elem_of_map_to_list.
Qed.

(** and touches nothing else. *)
Lemma updateClientCubes_other s r :
  (∀ c, clientCubes s !! c ≠ Some r) →
  store (updateClientCubes s) !! r = store s !! r.
Proof.
  intros Hr. simpl. apply foldl_updateClientCube_other.
  intros ([c r'] & -> & Hin%elem_of_map_to_list)%list_elem_of_fmap.
  by apply (Hr c).
Qed.

Lemma updateClientCubes_cubePosition s c r o :
  wf s → clientCubes s !! c = Some r → store s !! r = Some o →
  cubePosition (updateClientCubes s) c =
    Some match positions s !! c with
         | Some v => lerp (position o) v num_tenth
         | None => position o
         end.
Proof.
  intros Hwf Hc Ho. unfold cubePosition.
  change (clientCubes (updateClientCubes s)) with (clientCubes s).
  rewrite Hc. cbn [mbind option_bind]. rewrite (updateClientCubes_lookup _ c) by done.
  by rewrite Ho.
Qed.

Lemma updateClientCubes_cubeQuaternion s c r o :
  wf s → clientCubes s !! c = Some r → store s !! r = Some o →
  cubeQuaternion (updateClientCubes s) c =
    Some match quaternions s !! c with
         | Some v => slerp (quaternion o) v num_tenth
         | None => quaternion o
         end.
Proof.
  intros Hwf Hc Ho. unfold cubeQuaternion.
  change (clientCubes (updateClientCubes s)) with (clientCubes s).
  rewrite Hc. cbn [mbind option_bind]. rewrite (updateClientCubes_lookup _ c) by done.
  by rewrite Ho.
Qed.

(** Frames alone: the registry stays, the state stays well-formed. *)
Lemma iter_updateClientCubes_wf s n : wf s → wf (Nat.iter n updateClientCubes s).
Proof. intros Hwf. induction n as [|n IH]; simpl; [done|]. by apply updateClientCubes_wf. Qed.

Lemma iter_updateClientCubes_registry s n :
  clientCubes (Nat.iter n updateClientCubes s) = clientCubes s
  ∧ positions (Nat.iter n updateClientCubes s) = positions s
  ∧ quaternions (Nat.iter n updateClientCubes s) = quaternions s.
Proof. induction n as [|n IH]; simpl; [done|]. exact IH. Qed.

Lemma iter_updateClientCubes_cubePosition s c r v n :
  wf s → clientCubes s !! c = Some r → positions s !! c = Some v →
  ∃ p, cubePosition (Nat.iter n updateClientCubes s) c = Some p
     ∧ cubePosition (Nat.iter (S n) updateClientCubes s) c = Some (lerp p v num_tenth).
Proof.
  intros Hwf Hc Hv.
  pose proof (iter_updateClientCubes_wf s n Hwf) as Hwfn.
  destruct (iter_updateClientCubes_registry s n) as (HC & HP & _).
  set (sn := Nat.iter n updateClientCubes s) in *.
  assert (clientCubes sn !! c = Some r) as Hcn by (by rewrite HC).
  pose proof (wf_cube _ Hwfn _ _ Hcn) as Hnamed. unfold named in Hnamed.
  destruct (store sn !! r) as [o|] eqn:Ho; [|done].
  exists (position o). split.
  - unfold cubePosition. rewrite Hcn. simpl. by rewrite Ho.
  - change (Nat.iter (S n) updateClientCubes s) with (updateClientCubes sn).
    rewrite (updateClientCubes_cubePosition _ _ r o) by done.
    by rewrite HP, Hv.
Qed.

End Advance.

(** ** The claims about [updateClientCubes] and [handleRemoveClient] *)


(** C10.  A frame changes nothing but the store, and in the store only
    the poses of meshes held by [clientCubes]: the three dictionaries, the
    time stamp, the [pingStats] text, the scene and all else are the same
    before and after, no object is created or dropped, and names stay. *)
Theorem C10_frame_only_moves_registered_meshes {num : Type} {N : Number num} {L : Slerp num}
    (s : SocketHandler num) :
  let s' := updateClientCubes s in
  clientCubes s' = clientCubes s
  ∧ positions s' = positions s
  ∧ quaternions s' = quaternions s
  ∧ timestamp s' = timestamp s
  ∧ pingStats s' = pingStats s
  ∧ myId s' = myId s
  ∧ object s' = object s
  ∧ scene s' = scene s
  ∧ intervals s' = intervals s
  ∧ emitted s' = emitted s
  ∧ console s' = console s
  ∧ length (store s') = length (store s)
  ∧ (∀ r, name <$> store s' !! r = name <$> store s !! r)
  ∧ (∀ r, store s' !! r = store s !! r ∨ ∃ c, clientCubes s !! c = Some r).
Proof.
  intros s'. split_and!; try done.
  - apply foldl_updateClientCube_length.
  - intros r. apply foldl_updateClientCube_names.
  - intros r. destruct (decide (r ∈ (map_to_list (clientCubes s)).*2)) as [Hin|Hout].
    + right. apply list_elem_of_fmap in Hin as ([c r'] & -> & Hin).
      exists c. by apply elem_of_map_to_list.
    + left. by apply foldl_updateClientCube_other.
Qed.

(** C2 (the code departs from the claim).  [handleRemoveClient] takes the
    mesh out of the scene and nothing more: [clientCubes], [positions],
    [quaternions] and the store are as before, so the frames after a
    removal do to the store exactly what they would have done without it.
    On binary64, in the scenario of the specification: after the removal of
    ["p1"] the scene no longer shows it, its record and target are still
    there, and the next two frames move its mesh from [(0,0,0)] to
    [(0.2,0,0)] and on to [(0.38,0,0)]. *)
Theorem C2_removal_leaves_the_record :
  (∀ (num : Type) (N : Number num) (L : Slerp num) (s : SocketHandler num) id,
     clientCubes (handleRemoveClient id s) = clientCubes s
     ∧ positions (handleRemoveClient id s) = positions s
     ∧ quaternions (handleRemoveClient id s) = quaternions s
     ∧ store (handleRemoveClient id s) = store s
     ∧ store (updateClientCubes (handleRemoveClient id s)) = store (updateClientCubes s))
  ∧ (∀ (L : Slerp float) (T : ToString float),
       let s' := handleRemoveClient "p1" Sample.met in
       proxies Sample.met "p1" = [2%nat]
       ∧ proxies s' "p1" = []
       ∧ clientCubes s' !! "p1" = Some 2%nat
       ∧ positions s' !! "p1" = Some (mkVector3 2 0 0)%float
       ∧ cubePosition s' "p1" = Some (mkVector3 0 0 0)%float
       ∧ cubePosition (updateClientCubes s') "p1"
         = Some (mkVector3 0x1.999999999999ap-3 0 0)%float
       ∧ cubePosition (updateClientCubes (updateClientCubes s')) "p1"
         = Some (mkVector3 0x1.851eb851eb852p-2 0 0)%float).
Proof.
  split.
  - intros num N L s id. by split_and!.
  - intros L T. by vm_compute.
Qed.

(** C3 (the code departs from the claim).  On binary64: ["p1"] is seen
    once, removed, and seen again with a position.  The second sighting
    finds the old record: no mesh is created (the store still has three
    objects), the scene stays without a child named ["p1"], and the
    position of the message is stored as target at once. *)
Theorem C3_reappearance_finds_the_old_record :
  ∀ (T : ToString float),
  let s1 := handleClients (Sample.clock 120) Sample.batch1 Sample.boot in
  let s2 := handleRemoveClient "p1" s1 in
  let s3 := handleClients (Sample.clock 260) Sample.batch2 s2 in
  (clientCubes s1 !! "p1" = Some 2%nat ∧ scene s1 = [0; 1; 2]%nat
   ∧ positions s1 !! "p1" = None)
  ∧ (clientCubes s2 !! "p1" = Some 2%nat ∧ scene s2 = [0; 1]%nat)
  ∧ (clientCubes s3 !! "p1" = Some 2%nat
     ∧ length (store s3) = 3%nat
     ∧ scene s3 = [0; 1]%nat
     ∧ proxies s3 "p1" = []
     ∧ positions s3 !! "p1" = Some (mkVector3 2 0 0)%float).
Proof. intros T. by vm_compute. Qed.

(** ** The claims about [handleRemoveClient] and the publisher *)

Section Removal.
Context {num : Type} {N : Number num} {L : Slerp num} {T : ToString num}.

Implicit Types (s : SocketHandler num) (c id : string) (r : nat).

Lemma NoDup_delete_lookup (l : list nat) i r :
  NoDup l → l !! i = Some r → r ∉ delete i l.
Proof.
  intros Hnd Hi (j & Hj)%list_elem_of_lookup_1.
  destruct (decide (j < i)%nat) as [Hlt|Hge].
  - rewrite list_lookup_delete_lt in Hj by done.
    pose proof (NoDup_lookup _ _ _ _ Hnd Hi Hj). lia.
  - rewrite list_lookup_delete_ge in Hj by lia.
    pose proof (NoDup_lookup _ _ _ _ Hnd Hi Hj). lia.
Qed.

(** The child found by name is the one [indexOf] finds. *)
Lemma indexOf_list_find (objects : list (Object3D num)) id children i r :
  list_find (named objects id) children = Some (i, r) → indexOf r children = Some i.
Proof.
  intros (Hi & Hn & Hmin)%list_find_Some. unfold indexOf.
  assert (list_find (λ r', r' = r) children = Some (i, r)) as ->; [|done].
  apply list_find_Some. split; [done|]. split; [done|].
  intros j y Hj Hlt ->. by apply (Hmin j r).
Qed.

(** An identifier that was never in a batch names no child. *)
Lemma remove_unregistered s id :
  wf s → clientCubes s !! id = None →
  remove (getObjectByName (store s) (scene s) id) (scene s) = scene s.
Proof.
  intros Hwf Hid. unfold getObjectByName. case_decide as Hempty; [done|].
  assert (list_find (named (store s) id) (scene s) = None) as ->; [|done].
  apply list_find_None, Forall_forall. intros r Hr Hn.
  pose proof (wf_named _ Hwf r id Hr Hn Hempty). congruence.
Qed.

(** Once its child is gone, an identifier names no child. *)
Lemma remove_twice s id :
  wf s →
  let children := remove (getObjectByName (store s) (scene s) id) (scene s) in
  remove (getObjectByName (store s) children id) children = children.
Proof.
  intros Hwf. unfold getObjectByName. case_decide as Hempty; [done|].
  destruct (list_find (named (store s) id) (scene s)) as [[i r]|] eqn:Hfind; simpl.
  - rewrite (indexOf_list_find _ _ _ _ _ Hfind).
    assert (list_find (named (store s) id) (delete i (scene s)) = None) as ->; [|done].
    apply list_find_Some in Hfind as (Hi & Hn & _).
    apply list_find_None, Forall_forall. intros r' Hr' Hn'.
    pose proof (list_elem_of_delete_inv _ _ _ Hr') as Hin'.
    pose proof (wf_named _ Hwf r id (list_elem_of_lookup_2 _ _ _ Hi) Hn Hempty) as Hr.
    pose proof (wf_named _ Hwf r' id Hin' Hn' Hempty) as Hr2.
    assert (r' = r) as -> by congruence.
    by apply (NoDup_delete_lookup _ _ _ (wf_scene_NoDup _ Hwf) Hi).
  - by rewrite Hfind.
Qed.

(** C7.  [handleRemoveClient] is a total function of the state.  In a
    reachable state, a second call for the same identifier changes nothing
    at all, and a call for an identifier that no batch ever held changes
    nothing at all. *)
Theorem C7_removal_is_idempotent s id :
  reachable s →
  handleRemoveClient id (handleRemoveClient id s) = handleRemoveClient id s
  ∧ (clientCubes s !! id = None → handleRemoveClient id s = s).
Proof.
  intros Hwf%reachable_wf. split.
  - unfold handleRemoveClient at 1. simpl. by rewrite remove_twice.
  - intros Hid. unfold handleRemoveClient.
    rewrite remove_unregistered by done. apply set_scene_id.
Qed.

(** *** The publisher *)

Lemma forEach_client_world now (clients : list (string * Payload.msg num)) : ∀ i acc,
  let s' := (forEach_client now i clients acc).2 in
  myId s' = myId acc.2 ∧ object s' = object acc.2 ∧ intervals s' = intervals acc.2
  ∧ emitted s' = emitted acc.2 ∧ console s' = console acc.2.
Proof.
  induction clients as [|[c m] rest IH]; intros i [html s]; simpl; [done|].
  destruct (IH (S i) (handleClient (now i) c m (html, s))) as (-> & -> & -> & -> & ->).
  unfold handleClient. simpl.
  destruct (truthy (clientCubes s) c); [|done].
  by destruct (Payload.p m), (Payload.q m).
Qed.

Lemma dispatch_intervals (e : Event) s :
  is_on_id e = false → intervals (dispatch e s) = intervals s.
Proof.
  destruct e; simpl; try done.
  - intros _. apply (forEach_client_world now clients 0 (_, s)).
  - intros _. destruct (intervals s !! k); [|done].
    unfold publish. by destruct (store s !! object s).
Qed.

Lemma dispatch_emitted (e : Event) s :
  is_on_interval e = false → emitted (dispatch e s) = emitted s.
Proof.
  destruct e; simpl; try done.
  intros _. apply (forEach_client_world now clients 0 (_, s)).
Qed.

Lemma dispatch_silent (e : Event) s :
  intervals s = [] → emitted (dispatch e s) = emitted s.
Proof.
  intros Hnone. destruct (is_on_interval e) eqn:He; [|by apply dispatch_emitted].
  destruct e; try done. simpl. by rewrite Hnone.
Qed.

Lemma run_snoc (es : list Event) e s : run (es ++ [e]) s = dispatch e (run es s).
Proof. unfold run. by rewrite foldl_snoc. Qed.

Lemma run_silent (es : list Event) : ∀ s,
  (∀ e, e ∈ es → is_on_id e = false) → intervals s = [] →
  intervals (run es s) = [] ∧ emitted (run es s) = emitted s.
Proof.
  induction es as [|e es IH] using rev_ind; intros s Hes Hnone; [done|].
  rewrite run_snoc.
  destruct (IH s) as [Hi He]; [intros e' He'; apply Hes, elem_of_app; by left|done|].
  split.
  - rewrite dispatch_intervals; [done|]. apply Hes, elem_of_app. right. by left.
  - by rewrite dispatch_silent.
Qed.

Lemma reachable_intervals s : reachable s → Forall (λ d, d = 50) (intervals s).
Proof.
  induction 1 as [grid local html | e s _ IH]; [by constructor|].
  destruct (is_on_id e) eqn:He.
  - destruct e; try done. simpl. apply Forall_app. split; [done|]. by constructor.
  - by rewrite dispatch_intervals.
Qed.

Lemma dispatch_intervals_id (e : Event) s :
  intervals (dispatch e s) = intervals s ++ (if is_on_id e then [50] else []).
Proof.
  destruct (is_on_id e) eqn:He.
  - by destruct e.
  - rewrite dispatch_intervals by done. by rewrite app_nil_r.
Qed.

(** [clearInterval] is never called: an interval stays registered. *)
Lemma dispatch_registered (e : Event) s k d :
  intervals s !! k = Some d → intervals (dispatch e s) !! k = Some d.
Proof. intros Hk. rewrite dispatch_intervals_id. by apply lookup_app_l_Some. Qed.

Lemma run_registered (es : list Event) s k d :
  intervals s !! k = Some d → intervals (run es s) !! k = Some d.
Proof.
  intros Hk. induction es as [|e es IH] using rev_ind; [done|].
  rewrite run_snoc. by apply dispatch_registered.
Qed.

(** A firing of a registered interval. *)
Lemma dispatch_firing s k d now o :
  intervals s !! k = Some d → store s !! object s = Some o →
  dispatch (on_interval k now) s
  = set_emitted (emitted s ++ [Update.mk now (position o) (quaternion o)]) s.
Proof. intros Hk Ho. simpl. rewrite Hk. unfold publish. by rewrite Ho. Qed.

(** Firings one after the other. *)
Lemma run_firings (nows : list num) : ∀ s k d o,
  intervals s !! k = Some d → store s !! object s = Some o →
  emitted (run (firings k nows) s)
  = emitted s ++ ((λ now, Update.mk now (position o) (quaternion o)) <$> nows).
Proof.
  induction nows as [|now nows IH]; intros s k d o Hk Ho.
  - simpl. by rewrite app_nil_r.
  - change (run (firings k (now :: nows)) s)
      with (run (firings k nows) (dispatch (on_interval k now) s)).
    rewrite (dispatch_firing _ _ d _ o) by done.
    rewrite (IH _ k d o) by done. simpl. by rewrite <-(assoc_L (++)).
Qed.

(** C8.  As long as no [id] event has come, whatever else happens, no
    interval is registered and nothing has been emitted; the [id] event
    then stores the identifier and registers one interval of 50 ms, and the
    interval stays registered whatever happens afterwards.  In a reachable
    state every registered interval has the period 50 ms and stays
    registered after every event, its own firings included, and so over
    every run; one firing of it, now or after any run, emits exactly one
    message [{ t, p, q }] holding the time of the firing and the position
    and orientation the local object has then (an edit made just before is
    seen); firings one after the other emit one message each, in their
    order; nothing else emits. *)
Theorem C8_publishing_starts_with_the_id_event :
  (∀ grid local html (es : list Event),
     (∀ e, e ∈ es → is_on_id e = false) →
     let s := run es (Main grid local html) in
     intervals s = [] ∧ emitted s = []
     ∧ ∀ id, myId (dispatch (on_id id) s) = id
           ∧ intervals (dispatch (on_id id) s) = [50]
           ∧ emitted (dispatch (on_id id) s) = []
           ∧ ∀ es', intervals (run es' (dispatch (on_id id) s)) !! 0%nat = Some 50)
  ∧ (∀ s, reachable s →
       (∀ e, is_on_interval e = false → emitted (dispatch e s) = emitted s)
       ∧ ∀ k d now, intervals s !! k = Some d →
           d = 50
           ∧ (∃ o, store s !! object s = Some o
                 ∧ emitted (dispatch (on_interval k now) s)
                   = emitted s ++ [Update.mk now (position o) (quaternion o)])
           ∧ (∀ p q, emitted (dispatch (on_interval k now) (dispatch (on_gui p q) s))
                     = emitted s ++ [Update.mk now p q])
           ∧ (∀ e, intervals (dispatch e s) !! k = Some d)
           ∧ (∀ es, intervals (run es s) !! k = Some d
                    ∧ ∃ o, store (run es s) !! object (run es s) = Some o
                         ∧ emitted (dispatch (on_interval k now) (run es s))
                           = emitted (run es s) ++ [Update.mk now (position o) (quaternion o)])
           ∧ (∀ nows, ∃ o, store s !! object s = Some o
                 ∧ emitted (run (firings k nows) s)
                   = emitted s ++ ((λ t, Update.mk t (position o) (quaternion o)) <$> nows))).
Proof.
  split.
  - intros grid local html es Hes s.
    destruct (run_silent es (Main grid local html) Hes eq_refl) as [Hi He].
    fold s in Hi, He. simpl in He. split; [done|]. split; [done|].
    intros id. split_and!.
    + done.
    + simpl. by rewrite Hi.
    + simpl. by rewrite He.
    + intros es'. apply run_registered. simpl. by rewrite Hi.
  - intros s Hs. split; [intros e; apply dispatch_emitted|].
    intros k d now Hk.
    pose proof (reachable_wf _ Hs) as Hwf.
    pose proof (wf_object _ Hwf) as [o Ho]%lookup_lt_is_Some.
    split_and!.
    + pose proof (reachable_intervals _ Hs) as Hall.
      by eapply Forall_lookup_1 in Hall; [|exact Hk].
    + exists o. split; [done|]. by rewrite (dispatch_firing _ _ d _ o).
    + intros p q. simpl. rewrite Hk. unfold publish. simpl.
      rewrite list_lookup_alter_eq, Ho. done.
    + intros e. by apply dispatch_registered.
    + intros es. pose proof (run_registered es s k d Hk) as Hk'. split; [done|].
      pose proof (reachable_wf _ (reachable_run es s Hs)) as Hwf'.
      pose proof (wf_object _ Hwf') as [o' Ho']%lookup_lt_is_Some.
      exists o'. split; [done|]. by rewrite (dispatch_firing _ _ d _ o').
    + intros nows. exists o. split; [done|]. by apply (run_firings nows s k d).
Qed.

End Removal.

(** ** Convergence on binary64 *)

Section Convergence.

Local Open Scope Q_scope.

Lemma Qabs_cases (x : Q) : (0 <= x ∧ Qabs x == x) ∨ (x <= 0 ∧ Qabs x == - x).
Proof.
  destruct (Qlt_le_dec x 0) as [Hneg|Hpos].
  - right. split; [lra|]. apply Qabs_neg. lra.
  - left. split; [done|]. by apply Qabs_pos.
Qed.

(** Replace [Qabs x] by a number that is [x] or [- x]. *)
Ltac Qabs_split x :=
  let H := fresh "Habs" in
  let a := fresh "a" in
  destruct (Qabs_cases x) as [[? H]|[? H]];
  revert H; generalize (Qabs x); intros a H.

(** One coordinate, in exact numbers: [X] is the coordinate and [T] its
    target; [D1], [D2] and [X'] are the results of the subtraction, the
    multiplication by [c] (the binary64 number nearest to [0.1]) and the
    addition, each with the rounding error at its right.  The step goes
    toward the target, not further, and leaves at most 97 % of the way. *)
Lemma steady_coordinate (X T D1 D2 X' c : Q) :
  c == 3602879701896397 # 36028797018963968 →
  Qabs (D1 - (T - X)) <= Qabs (T - X) * (1 # 2 ^ 53) →
  Qabs (D2 - D1 * c) <= Qabs (D1 * c) * (1 # 2 ^ 53) →
  Qabs (X' - (X + D2)) <= Qabs (X + D2) * (1 # 2 ^ 53) →
  Qabs (X' - (X + D2)) <= Qabs D2 →
  T == X ∨ Qabs X <= inject_Z (2 ^ 49) * Qabs (T - X) →
  (0 <= T - X → 0 <= T - X' <= (97 # 100) * (T - X) ∧ X <= X' <= T)
  ∧ (T - X <= 0 → (97 # 100) * (T - X) <= T - X' <= 0 ∧ T <= X' <= X).
Proof.
  intros Hc H1 H2 H3 H4 Htol.
  assert (D1 * c == D1 * (3602879701896397 # 36028797018963968)) as HP
    by (by rewrite Hc).
  revert H2 HP. generalize (D1 * c). intros P H2 HP.
  apply Qabs_Qle_condition in H1, H2, H3, H4.
  change (inject_Z (2 ^ 49)) with (562949953421312 # 1) in Htol.
  change (1 # 2 ^ 53) with (1 # 9007199254740992) in *.
  revert H1 H2 H3 H4 Htol.
  Qabs_split (T - X); Qabs_split P; Qabs_split (X + D2); Qabs_split D2; Qabs_split X;
    intros E1 E2 E3 E4 [Etol|Etol]; split; intros He; lra.
Qed.

Lemma tenth_measured : F2Q num_tenth == 3602879701896397 # 36028797018963968.
Proof. by vm_compute. Qed.

(** The same for the binary64 numbers of one coordinate of [lerp]. *)
Lemma steady1_step (a t : float) :
  steady1 a t = true →
  let a' := num_add a (num_mul (num_sub t a) num_tenth) in
  is_finite a' = true
  ∧ (0 <= F2Q t - F2Q a →
       0 <= F2Q t - F2Q a' <= (97 # 100) * (F2Q t - F2Q a) ∧ F2Q a <= F2Q a' <= F2Q t)
  ∧ (F2Q t - F2Q a <= 0 →
       (97 # 100) * (F2Q t - F2Q a) <= F2Q t - F2Q a' <= 0 ∧ F2Q t <= F2Q a' <= F2Q a).
Proof.
  unfold steady1, rounded. cbv zeta.
  rewrite !andb_true_iff, orb_true_iff, !Qle_bool_iff, Qeq_bool_iff.
  intros ((((((_ & _) & (_ & H1)) & (_ & H2)) & (Hfin & H3)) & H4) & Htol).
  split; [done|].
  by apply (steady_coordinate _ _ _ _ _ _ tenth_measured H1 H2 H3 H4).
Qed.

(** The square of what is left of the way. *)
Lemma square_shrinks (e e' : Q) :
  (0 <= e → 0 <= e' <= (97 # 100) * e) → (e <= 0 → (97 # 100) * e <= e' <= 0) →
  e' * e' <= (97 # 100) * (97 # 100) * (e * e).
Proof.
  intros Hpos Hneg. destruct (Qlt_le_dec e 0) as [He|He].
  - destruct Hneg as [Hlo Hhi]; [lra|]. nra.
  - destruct (Hpos He) as [Hlo Hhi]. nra.
Qed.

Lemma steady1_square (a t : float) :
  steady1 a t = true →
  let a' := num_add a (num_mul (num_sub t a) num_tenth) in
  (F2Q a' - F2Q t) * (F2Q a' - F2Q t)
  <= (97 # 100) * (97 # 100) * ((F2Q a - F2Q t) * (F2Q a - F2Q t)).
Proof.
  intros (_ & Hpos & Hneg)%steady1_step a'. fold a' in Hpos, Hneg.
  pose proof (square_shrinks (F2Q t - F2Q a) (F2Q t - F2Q a')) as Hsq.
  lapply Hsq; [clear Hsq; intros Hsq|intros He; by apply Hpos].
  lapply Hsq; [clear Hsq; intros Hsq|intros He; by apply Hneg].
  lra.
Qed.

Lemma steady1_between (a t : float) :
  steady1 a t = true → between a t (num_add a (num_mul (num_sub t a) num_tenth)).
Proof.
  intros (_ & Hpos & Hneg)%steady1_step. unfold between.
  destruct (Qlt_le_dec (F2Q t - F2Q a) 0) as [He|He].
  - right. apply Hneg. lra.
  - left. by apply Hpos.
Qed.

(** One frame, for the three coordinates. *)
Lemma steady_squared (p v : Vector3 float) :
  steady p v = true →
  distanceToSquared (lerp p v num_tenth) v
  <= (97 # 100) * (97 # 100) * distanceToSquared p v.
Proof.
  unfold steady. rewrite !andb_true_iff.
  intros [[Hx%steady1_square Hy%steady1_square] Hz%steady1_square].
  unfold distanceToSquared, lerp. cbn [x y z]. cbv zeta in Hx, Hy, Hz. lra.
Qed.

Lemma distanceToSquared_nonneg (p v : Vector3 float) : 0 <= distanceToSquared p v.
Proof.
  assert (∀ a : Q, 0 <= a * a) as Hsq by (intros a; nra).
  pose proof (Hsq (F2Q (x p) - F2Q (x v))).
  pose proof (Hsq (F2Q (y p) - F2Q (y v))).
  pose proof (Hsq (F2Q (z p) - F2Q (z v))).
  unfold distanceToSquared. lra.
Qed.

Local Open Scope R_scope.

Lemma steady_distanceTo (p v : Vector3 float) :
  steady p v = true →
  distanceTo (lerp p v num_tenth) v <= 97 / 100 * distanceTo p v.
Proof.
  intros Hst%steady_squared%Qle_Rle. unfold distanceTo.
  rewrite !Q2R_mult in Hst.
  assert (Q2R (97 # 100) = 97 / 100) as Hk by (unfold Q2R; cbn [Qnum Qden]; Lra.lra).
  rewrite Hk in Hst.
  pose proof (Qle_Rle _ _ (distanceToSquared_nonneg p v)) as Hp.
  replace (Q2R 0) with 0 in Hp by (unfold Q2R; cbn [Qnum Qden]; Lra.lra).
  rewrite <-(sqrt_square (97 / 100)) at 1 by Lra.lra.
  rewrite <-sqrt_mult_alt by Lra.lra.
  apply sqrt_le_1_alt. Lra.lra.
Qed.

End Convergence.

(** The mesh of a peer with a fixed target, frame after frame. *)
Section Frames.
Context {L : Slerp float} {T : ToString float}.

Lemma frames_converge (s : SocketHandler float) c r v :
  wf s → clientCubes s !! c = Some r → positions s !! c = Some v →
  ∀ n p, cubePosition (Nat.iter n updateClientCubes s) c = Some p →
    steady p v = true →
    ∃ p', cubePosition (Nat.iter (S n) updateClientCubes s) c = Some p'
      ∧ is_finite (x p') && is_finite (y p') && is_finite (z p') = true
      ∧ (distanceTo p' v <= 97 / 100 * distanceTo p v)%R
      ∧ ((0 < distanceTo p v)%R → (distanceTo p' v < distanceTo p v)%R)
      ∧ between (x p) (x v) (x p') ∧ between (y p) (y v) (y p')
      ∧ between (z p) (z v) (z p').
Proof.
  intros Hwf Hc Hv n p Hp Hst.
  destruct (iter_updateClientCubes_cubePosition s c r v n Hwf Hc Hv) as (p0 & Hp0 & Hnext).
  assert (p0 = p) as -> by congruence.
  exists (lerp p v num_tenth). split; [done|].
  pose proof (steady_distanceTo p v Hst) as Hd.
  unfold steady in Hst. rewrite !andb_true_iff in Hst. destruct Hst as [[Hx Hy] Hz].
  split_and!.
  - rewrite !andb_true_iff. split_and!.
    + by apply steady1_step in Hx as [Hx _].
    + by apply steady1_step in Hy as [Hy _].
    + by apply steady1_step in Hz as [Hz _].
  - done.
  - intros Hpos. Lra.lra.
  - by apply steady1_between.
  - by apply steady1_between.
  - by apply steady1_between.
Qed.

(** The scenario of the specification, frame after frame. *)
Lemma met_reachable : reachable Sample.met.
Proof.
  apply (reachable_dispatch (on_clients _ _)), (reachable_dispatch (on_clients _ _)).
  apply reachable_Main.
Qed.

Lemma met_steady n :
  (n < 323)%nat → steady_frame Sample.met "p1" (mkVector3 2 0 0)%float n = true.
Proof.
  intros Hn.
  assert (forallb (steady_frame Sample.met "p1" (mkVector3 2 0 0)%float) (seq 0 323) = true)
    as Hall by by vm_compute.
  rewrite forallb_forall in Hall. apply Hall, in_seq. lia.
Qed.

Lemma met_climbs n : (n < 333)%nat → climbs Sample.met "p1" 2 n = true.
Proof.
  intros Hn.
  assert (forallb (climbs Sample.met "p1" 2) (seq 0 333) = true) as Hall by by vm_compute.
  rewrite forallb_forall in Hall. apply Hall, in_seq. lia.
Qed.

Lemma met_rests n :
  (333 ≤ n)%nat →
  cubePosition (Nat.iter n updateClientCubes Sample.met) "p1"
  = Some (mkVector3 0x1.ffffffffffffcp+0 0 0)%float.
Proof.
  induction 1 as [|n Hn IH]; [by vm_compute|].
  destruct (iter_updateClientCubes_cubePosition Sample.met "p1" 2
              (mkVector3 2 0 0)%float n) as (p & Hp & ->).
  - apply reachable_wf, met_reachable.
  - by vm_compute.
  - by vm_compute.
  - rewrite IH in Hp. injection Hp as <-. by vm_compute.
Qed.

End Frames.


(** ** The theorems at concrete inputs *)

Section Concrete.

(** The interpolation and the digits the handler runs with here. *)
#[local] Existing Instance blend.
#[local] Existing Instance Sample.digits.

Lemma p1_not_inherited : "p1" ∉ Object_prototype.
Proof. apply (bool_decide_unpack _). by vm_compute. Qed.

Lemma me_not_inherited : "me" ∉ Object_prototype.
Proof. apply (bool_decide_unpack _). by vm_compute. Qed.



(** C4 at the example of the specification: ["abc"] has the target
    [(1,0,0)], and a batch brings [{ t: 1000 }] for it. *)
Lemma C4_absent_field_witness :
  let s := handleClients (Sample.clock 950) Sample.batch_abc
             (handleClients (Sample.clock 910) Sample.batch_abc Sample.boot) in
  positions s !! "abc" = Some (mkVector3 1 0 0)%float
  ∧ positions (handleClients (Sample.clock 1010) Sample.batch_abc_bare s) !! "abc"
    = Some (mkVector3 1 0 0)%float.
Proof.
  intros s. split; [by vm_compute|].
  destruct (C4_absent_field_retains_target s (Sample.clock 1010) Sample.batch_abc_bare
              "abc" (Payload.mk 1000%float None None) 2) as [Hp _].
  - one_entry.
  - one_entry.
  - by vm_compute.
  - rewrite (Hp eq_refl). by vm_compute.
Defined.




(** C7 for a registered and for an unknown identifier. *)
Lemma C7_removal_witness :
  let s := handleClients (Sample.clock 120) Sample.batch1 Sample.boot in
  handleRemoveClient "p1" (handleRemoveClient "p1" s) = handleRemoveClient "p1" s
  ∧ handleRemoveClient "ghost" s = s.
Proof.
  intros s.
  assert (reachable (L := blend) s) as Hs
    by apply (reachable_dispatch (on_clients _ _)), reachable_Main.
  split.
  - apply (C7_removal_is_idempotent (L := blend) s "p1" Hs).
  - by apply (C7_removal_is_idempotent (L := blend) s "ghost" Hs).
Defined.

(** C8 for a run in which much happens before the [id] event, and much
    after it. *)
Lemma C8_publishing_witness :
  let s := run (L := blend) Sample.prelude Sample.boot in
  let s' := run More.busy (dispatch (on_id "me") s) in
  emitted s = []
  ∧ emitted (dispatch (on_interval 0 777%float) (dispatch (on_id "me") s))
    = [Update.mk 777%float Sample.local Sample.upright]
  ∧ intervals s' !! 0%nat = Some 50
  ∧ emitted (run (firings 0 [800; 850; 900]%float) s')
    = emitted s' ++ [Update.mk 800%float Sample.grid Sample.upright;
                     Update.mk 850%float Sample.grid Sample.upright;
                     Update.mk 900%float Sample.grid Sample.upright].
Proof.
  intros s s'.
  destruct (C8_publishing_starts_with_the_id_event (num := float) (L := blend))
    as [Hbefore Hafter].
  destruct (Hbefore Sample.grid Sample.local "" Sample.prelude) as (_ & Hnone & Hid).
  - intros e He. unfold Sample.prelude in He.
    repeat (apply elem_of_cons in He as [->|He]; [done|]). by apply elem_of_nil in He.
  - split; [exact Hnone|].
    destruct (Hid "me") as (_ & _ & _ & Hstays).
    assert (reachable (dispatch (on_id "me") s)) as Hs
      by apply reachable_dispatch, reachable_run, reachable_Main.
    split_and!.
    + destruct (Hafter (dispatch (on_id "me") s) Hs) as [_ Hfire].
      destruct (Hfire 0%nat 50 777%float eq_refl) as (_ & (o & Ho & ->) & _).
      vm_compute in Ho. injection Ho as <-. by vm_compute.
    + apply Hstays.
    + destruct (Hafter s' (reachable_run More.busy _ Hs)) as [_ Hfire].
      destruct (Hfire 0%nat 50 0%float (Hstays More.busy)) as (_ & _ & _ & _ & _ & Hrow).
      destruct (Hrow [800; 850; 900]%float) as (o & Ho & ->).
      vm_compute in Ho. injection Ho as <-. by vm_compute.
Defined.



End Concrete.

(** * Further properties of the handler *)

(** ** The objects of the program *)

Section Objects.
Context {num : Type} {N : Number num} {L : Slerp num} {T : ToString num}.

Implicit Types (s : SocketHandler num) (c id : string) (m : Payload.msg num) (r : nat).
Implicit Types (clients : list (string * Payload.msg num)).

Lemma counted_Main grid local html : counted (Main grid local html).
Proof.
  split; simpl; try done.
  intros [|[|r]] o Hr Hge; simpl in Hr; try lia. done.
Qed.

Lemma handleClient_counted now c m html s : counted s → counted (handleClient now c m (html, s)).2.
Proof.
  intros [Hobj Hgrid Hlocal Hlen Href Hmesh].
  destruct (handleClient_cases c s) as [Hc|[Hc Hp]].
  - rewrite handleClient_truthy by done. simpl.
    by destruct (Payload.p m), (Payload.q m).
  - rewrite handleClient_unknown by done. split; simpl; try done.
    + apply named_app_l; [lia|done].
    + apply named_app_l; [lia|done].
    + rewrite length_app, map_size_insert_None by done. simpl. lia.
    + intros c0 r0. case_key c0 c; [intros [= <-]; lia|apply Href].
    + intros r0 o Hr0 Hge. apply lookup_app_Some in Hr0 as [Hr0|[Hr0 Hnew]].
      * pose proof (Hmesh _ _ Hr0 Hge) as Hreg.
        rewrite lookup_insert_ne; [done|]. congruence.
      * destruct (r0 - length (store s))%nat as [|k] eqn:Hk; [|done].
        simpl in Hnew. injection Hnew as <-. simpl.
        replace r0 with (length (store s)) by lia. by rewrite lookup_insert_eq.
Qed.

Lemma forEach_client_counted now clients : ∀ i acc,
  counted acc.2 → counted (forEach_client now i clients acc).2.
Proof.
  induction clients as [|[c m] rest IH]; intros i [html s] Hs; simpl; [done|].
  apply IH. by apply handleClient_counted.
Qed.

(** Changing poses only keeps the count. *)
Lemma counted_poses s (objects : list (Object3D num)) :
  length objects = length (store s) →
  (∀ r, name <$> objects !! r = name <$> store s !! r) →
  counted s → counted (set_store objects s).
Proof.
  intros Hlen Hnames [Hobj Hgrid Hlocal Hlen' Href Hmesh].
  split; simpl; try done.
  - unfold named. by rewrite Hnames.
  - unfold named. by rewrite Hnames.
  - by rewrite Hlen.
  - intros r o Hr Hge. specialize (Hnames r). rewrite Hr in Hnames.
    destruct (store s !! r) as [o'|] eqn:Ho'; [|done].
    simpl in Hnames. injection Hnames as ->. by apply Hmesh.
Qed.

Lemma dispatch_counted (e : Event) s : counted s → counted (dispatch e s).
Proof.
  intros Hs. destruct e; simpl.
  - by destruct Hs.
  - by destruct Hs.
  - by destruct Hs.
  - unfold handleClients.
    pose proof (forEach_client_counted now clients 0 ("Socket Ping Stats<br/><br/>", s) Hs)
      as [].
    by split.
  - by destruct Hs.
  - destruct (intervals s !! k); [|done]. unfold publish.
    destruct (store s !! object s); [|done]. by destruct Hs.
  - apply counted_poses; [ | | done].
    + apply foldl_updateClientCube_length.
    + intros r. apply foldl_updateClientCube_names.
  - apply counted_poses; [apply length_alter | | done].
    intros r. by apply alter_names.
Qed.

Lemma reachable_counted s : reachable s → counted s.
Proof.
  induction 1 as [grid local html | e s _ IH].
  - apply counted_Main.
  - by apply dispatch_counted.
Qed.

(** A list that holds one element with [P], at [r]. *)
Lemma filter_unique {A} (P : A → Prop) `{!∀ a, Decision (P a)} (l : list A) r a :
  l !! r = Some a → P a → (∀ j b, l !! j = Some b → P b → j = r) → filter P l = [a].
Proof.
  intros Hr Ha Huniq. rewrite <-(take_drop_middle l r a Hr), filter_app, filter_cons_True by done.
  rewrite (filter_none P (take r l)), (filter_none P (drop (S r) l)); [done| |].
  - apply Forall_forall. intros b (j & Hj)%list_elem_of_lookup_1 Hb.
    rewrite lookup_drop in Hj. specialize (Huniq _ _ Hj Hb). lia.
  - apply Forall_forall. intros b (j & Hj)%list_elem_of_lookup_1 Hb.
    pose proof (lookup_lt_Some _ _ _ Hj) as Hlt. rewrite length_take in Hlt.
    rewrite lookup_take_lt in Hj by lia. specialize (Huniq _ _ Hj Hb). lia.
Qed.

(** X1.  In every reachable state the registry is consistent: every key of
    [clientCubes] holds an object of the store that carries the key as its
    name, two keys never hold the same object, and no key is a name of a
    property of [Object.prototype]; a target is stored only under a key of
    [clientCubes] or under such a name; the children of the scene are
    objects of the store, none listed twice. *)
Theorem X1_registry_is_consistent s :
  reachable s →
  (∀ c r, clientCubes s !! c = Some r → ∃ o, store s !! r = Some o ∧ name o = c)
  ∧ (∀ c1 c2 r, clientCubes s !! c1 = Some r → clientCubes s !! c2 = Some r → c1 = c2)
  ∧ (∀ c, is_Some (clientCubes s !! c) → c ∉ Object_prototype)
  ∧ (∀ c, is_Some (positions s !! c) ∨ is_Some (quaternions s !! c) →
          is_Some (clientCubes s !! c) ∨ c ∈ Object_prototype)
  ∧ (∀ r, r ∈ scene s → is_Some (store s !! r))
  ∧ NoDup (scene s).
Proof.
  intros Hwf%reachable_wf. split_and!.
  - intros c r Hc%(wf_cube _ Hwf). unfold named in Hc.
    destruct (store s !! r) as [o|]; [|done]. exists o. split; [done|].
    simpl in Hc. congruence.
  - intros c1 c2 r H1%(wf_cube _ Hwf) H2%(wf_cube _ Hwf). unfold named in *. congruence.
  - apply (wf_own _ Hwf).
  - intros c [Hc|Hc]; [by apply (wf_positions _ Hwf)|by apply (wf_quaternions _ Hwf)].
  - intros r Hr. apply lookup_lt_is_Some.
    pose proof (wf_scene _ Hwf) as Hall. by eapply Forall_forall in Hall.
  - apply (wf_scene_NoDup _ Hwf).
Qed.

(** In a reachable state an object other than the first two is
    registered under its name, *)
Lemma reachable_registered s j o :
  reachable s → store s !! j = Some o → name o ≠ "" → clientCubes s !! name o = Some j.
Proof.
  intros Hs Hj Hne. pose proof (reachable_counted _ Hs) as Hn.
  apply (counted_mesh _ Hn); [done|].
  pose proof (counted_grid _ Hn) as H0. pose proof (counted_local _ Hn) as H1.
  unfold named in H0, H1.
  destruct j as [|[|j]]; [|  |lia].
  - rewrite Hj in H0. simpl in H0. congruence.
  - rewrite Hj in H1. simpl in H1. congruence.
Qed.

(** so an identifier that is no key of [clientCubes] has no object and no
    child in the scene. *)
Lemma unregistered_has_nothing s c :
  reachable s → c ≠ "" → clientCubes s !! c = None → meshes s c = [] ∧ proxies s c = [].
Proof.
  intros Hs Hc Hnone. pose proof (reachable_wf _ Hs) as Hwf. split.
  - apply filter_none, Forall_forall. intros o (j & Hj)%list_elem_of_lookup_1 Ho.
    subst c. pose proof (reachable_registered s j o Hs Hj Hc). congruence.
  - apply filter_none, Forall_forall. intros r Hr Hnamed.
    pose proof (wf_named _ Hwf _ _ Hr Hnamed Hc). congruence.
Qed.

(** X2.  In every reachable state the store holds the grid helper, the
    local object and exactly one mesh for each key of [clientCubes]: its
    length is two more than the number of keys; an identifier other than
    [""] that is no key of [clientCubes] has no object and no child in the
    scene, and no target either unless it is a name of a property of
    [Object.prototype]; a registered one has exactly one object, the one
    [clientCubes] holds. *)
Theorem X2_one_mesh_for_each_identifier s c :
  reachable s → c ≠ "" →
  length (store s) = (2 + size (clientCubes s))%nat
  ∧ (clientCubes s !! c = None →
       meshes s c = [] ∧ proxies s c = []
       ∧ (c ∉ Object_prototype → positions s !! c = None ∧ quaternions s !! c = None))
  ∧ (∀ r, clientCubes s !! c = Some r →
       ∃ o, store s !! r = Some o ∧ meshes s c = [o]).
Proof.
  intros Hs Hc. pose proof (reachable_wf _ Hs) as Hwf.
  pose proof (reachable_counted _ Hs) as Hn.
  assert (∀ j o, store s !! j = Some o → name o = c → clientCubes s !! c = Some j) as Hreg.
  { intros j o Hj <-. apply (counted_mesh _ Hn); [done|].
    pose proof (counted_grid _ Hn) as H0. pose proof (counted_local _ Hn) as H1.
    unfold named in H0, H1.
    destruct j as [|[|j]]; [|  |lia].
    - rewrite Hj in H0. simpl in H0. congruence.
    - rewrite Hj in H1. simpl in H1. congruence. }
  split; [apply (counted_length _ Hn)|]. split.
  - intros Hnone. split_and!.
    + apply filter_none, Forall_forall. intros o (j & Hj)%list_elem_of_lookup_1 Ho.
      specialize (Hreg _ _ Hj Ho). congruence.
    + apply filter_none, Forall_forall. intros r Hr Hnamed.
      pose proof (wf_named _ Hwf _ _ Hr Hnamed Hc). congruence.
    + intros Hproto. split; apply eq_None_not_Some.
      * intros [Hp|Hp]%(wf_positions _ Hwf); [|done].
        rewrite Hnone in Hp. by destruct Hp.
      * intros [Hq|Hq]%(wf_quaternions _ Hwf); [|done].
        rewrite Hnone in Hq. by destruct Hq.
  - intros r Hr. pose proof (wf_cube _ Hwf _ _ Hr) as Hnamed. unfold named in Hnamed.
    destruct (store s !! r) as [o|] eqn:Ho; [|done].
    exists o. split; [done|]. simpl in Hnamed. injection Hnamed as Hname.
    apply (filter_unique _ _ r); [done..|].
    intros j b Hj Hb. specialize (Hreg _ _ Hj Hb). congruence.
Qed.

(** X13.  A batch entry under a name of a property of
    [Object.prototype] is taken for a known peer from its first sighting
    on: [clientCubes] and the objects named so stay as they are, and the
    targets present in the message are stored at once.  In a reachable
    state such a name has no record, no object and no child in the scene,
    before the batch and after it: a peer with such an identifier is never
    shown. *)
Theorem X13_inherited_name_gets_no_mesh s now clients c m :
  NoDup (clients.*1) → (c, m) ∈ clients → c ∈ Object_prototype →
  let s' := handleClients now clients s in
  clientCubes s' !! c = clientCubes s !! c
  ∧ meshes s' c = meshes s c
  ∧ positions s' !! c = match Payload.p m with Some v => Some v | None => positions s !! c end
  ∧ quaternions s' !! c = match Payload.q m with Some v => Some v | None => quaternions s !! c end
  ∧ (reachable s →
       clientCubes s' !! c = None ∧ meshes s' c = [] ∧ proxies s c = [] ∧ proxies s' c = []).
Proof.
  intros Hnd Hin Hproto s'.
  assert (truthy (clientCubes s) c = true) as Hc by (apply truthy_true; by right).
  destruct (handleClients_truthy now clients s c m Hnd Hin Hc) as (HC & HP & HQ & G).
  fold s' in HC, HP, HQ, G.
  split_and!; [done|by apply grows_meshes|done|done|].
  intros Hs. pose proof (reachable_wf _ Hs) as Hwf.
  assert (c ≠ "") as Hne by (intros ->; by apply empty_not_inherited in Hproto).
  assert (clientCubes s !! c = None) as Hnone.
  { apply eq_None_not_Some. intros Hreg. by apply (wf_own _ Hwf c Hreg). }
  destruct (unregistered_has_nothing s c Hs Hne Hnone) as [Hm Hp].
  split_and!; [congruence| |done|].
  - by rewrite (grows_meshes _ _ _ G).
  - by rewrite (grows_proxies _ _ _ (wf_scene _ Hwf) G).
Qed.

End Objects.

(** ** The diagnostics text *)

Section Diagnostics.
Context {num : Type} {N : Number num} {T : ToString num}.

Implicit Types (s : SocketHandler num) (c id : string) (m : Payload.msg num).
Implicit Types (clients : list (string * Payload.msg num)).

Lemma append_assoc (a b c : string) : (a +:+ b) +:+ c = a +:+ (b +:+ c).
Proof.
  induction a as [|ch a IH]; [done|].
  change (String ch ((a +:+ b) +:+ c) = String ch (a +:+ (b +:+ c))). by f_equal.
Qed.

Lemma append_empty_r (a : string) : a +:+ "" = a.
Proof.
  induction a as [|ch a IH]; [done|].
  change (String ch (a +:+ "") = String ch a). by f_equal.
Qed.

Lemma handleClient_html now c m html s :
  (handleClient now c m (html, s)).1
  = html +:+ c +:+ " " +:+ toString (num_sub now (Payload.t m)) +:+ "ms<br/>".
Proof. unfold handleClient. simpl. by destruct (truthy (clientCubes s) c). Qed.

Lemma handleClient_timestamp now c m html s :
  timestamp (handleClient now c m (html, s)).2 = now.
Proof.
  unfold handleClient. simpl. destruct (truthy (clientCubes s) c); [|done].
  by destruct (Payload.p m), (Payload.q m).
Qed.

Lemma forEach_client_html now clients : ∀ i html s,
  (forEach_client now i clients (html, s)).1 = html +:+ pingLines now i clients.
Proof.
  induction clients as [|[c m] rest IH]; intros i html s; simpl.
  - by rewrite append_empty_r.
  - pose proof (handleClient_html (now i) c m html s) as Hhtml.
    destruct (handleClient (now i) c m (html, s)) as [html' s'].
    simpl in Hhtml. subst html'. rewrite IH. apply append_assoc.
Qed.

Lemma forEach_client_timestamp now clients : ∀ i html s,
  timestamp (forEach_client now i clients (html, s)).2
  = match clients with
    | [] => timestamp s
    | _ => now (i + length clients - 1)%nat
    end.
Proof.
  induction clients as [|[c m] rest IH]; intros i html s; simpl; [done|].
  pose proof (handleClient_timestamp (now i) c m html s) as Hts.
  destruct (handleClient (now i) c m (html, s)) as [html' s'].
  rewrite IH. destruct rest as [|cm rest].
  - simpl in *. rewrite Hts. f_equal. lia.
  - simpl. f_equal. lia.
Qed.

(** X3.  After [handleClients] the [pingStats] text is the heading and
    one line [c + ' ' + (Date.now() - t) + 'ms<br/>'] for each entry of
    the batch, in the order of the batch, the difference being a number
    of the run time, printed by its [Number::toString]: the text does not
    depend on what the state was, and a peer that is not in the batch is
    not listed.  The field [timestamp] is the clock value read in the last
    iteration, and stays as it was when the batch is empty. *)
Theorem X3_pingStats_lists_the_batch s now clients :
  pingStats (handleClients now clients s)
  = "Socket Ping Stats<br/><br/>" +:+ pingLines now 0 clients
  ∧ (∀ s', pingStats (handleClients now clients s') = pingStats (handleClients now clients s))
  ∧ timestamp (handleClients now clients s)
    = match clients with
      | [] => timestamp s
      | _ => now (length clients - 1)%nat
      end.
Proof.
  unfold handleClients. simpl. split_and!.
  - apply forEach_client_html.
  - intros s'. by rewrite !forEach_client_html.
  - apply forEach_client_timestamp.
Qed.

End Diagnostics.

(** ** What a run never undoes *)

Section Persistence.
Context {num : Type} {N : Number num} {L : Slerp num} {T : ToString num}.

Implicit Types (s : SocketHandler num) (c id : string) (m : Payload.msg num) (r : nat).
Implicit Types (clients : list (string * Payload.msg num)).

Lemma persists_refl s : persists s s.
Proof. split; eauto. Qed.

Lemma persists_trans s1 s2 s3 : persists s1 s2 → persists s2 s3 → persists s1 s3.
Proof.
  intros [C1 P1 Q1 S1] [C2 P2 Q2 S2]. split; eauto.
  - by trans (clientCubes s2).
  - intros r o (o' & Ho' & <-)%S1. by apply S2.
Qed.

(** Changing poses only loses nothing. *)
Lemma persists_poses s (objects : list (Object3D num)) :
  (∀ r, name <$> objects !! r = name <$> store s !! r) → persists s (set_store objects s).
Proof.
  intros Hnames. split; simpl; eauto.
  intros r o Ho. specialize (Hnames r). rewrite Ho in Hnames.
  destruct (objects !! r) as [o'|]; [|done]. exists o'. split; [done|].
  simpl in Hnames. congruence.
Qed.

Lemma handleClient_persists now c m html s : persists s (handleClient now c m (html, s)).2.
Proof.
  destruct (handleClient_cases c s) as [Hc|[Hc Hp]].
  - rewrite handleClient_truthy by done. simpl.
    destruct (Payload.p m), (Payload.q m); split; simpl; eauto;
      intros c0 Hc0; by case_key c0 c.
  - rewrite handleClient_unknown by done. split; simpl; eauto.
    + by apply insert_subseteq.
    + intros r o Ho. exists o. split; [|done]. by apply lookup_app_l_Some.
Qed.

Lemma forEach_client_persists now clients : ∀ i acc,
  persists acc.2 (forEach_client now i clients acc).2.
Proof.
  induction clients as [|[c m] rest IH]; intros i [html s]; simpl.
  - apply persists_refl.
  - eapply persists_trans; [apply (handleClient_persists (now i) c m html s)|apply IH].
Qed.

Lemma dispatch_persists (e : Event) s : persists s (dispatch e s).
Proof.
  destruct e; simpl; try apply persists_refl.
  - by split; simpl; eauto.
  - by split; simpl; eauto.
  - by split; simpl; eauto.
  - unfold handleClients.
    pose proof (forEach_client_persists now clients 0 ("Socket Ping Stats<br/><br/>", s))
      as [].
    by split.
  - by split; simpl; eauto.
  - destruct (intervals s !! k); [|apply persists_refl]. unfold publish.
    destruct (store s !! object s); [|apply persists_refl]. by split; simpl; eauto.
  - apply persists_poses. intros r. apply foldl_updateClientCube_names.
  - apply persists_poses. intros r. by apply alter_names.
Qed.

Lemma run_persists (es : list Event) s : persists s (run es s).
Proof.
  induction es as [|e es IH] using rev_ind; [apply persists_refl|].
  rewrite run_snoc. eapply persists_trans; [exact IH|apply dispatch_persists].
Qed.

Lemma run_clientCubes (es : list Event) s c r :
  clientCubes s !! c = Some r → clientCubes (run es s) !! c = Some r.
Proof. intros Hc. by eapply lookup_weaken; [|apply run_persists]. Qed.

(** X4.  Whatever events follow, in whatever order, nothing of the
    registry is ever taken back: a key of [clientCubes] keeps the very
    object it holds, a key that has a target position or orientation keeps
    having one, and every object of the store stays at its index under its
    name.  In particular [removeClient] deletes no entry and frees no
    object. *)
Theorem X4_registry_only_grows (es : list Event) s :
  (∀ c r, clientCubes s !! c = Some r → clientCubes (run es s) !! c = Some r)
  ∧ (∀ c, is_Some (positions s !! c) → is_Some (positions (run es s) !! c))
  ∧ (∀ c, is_Some (quaternions s !! c) → is_Some (quaternions (run es s) !! c))
  ∧ (∀ r o, store s !! r = Some o →
       ∃ o', store (run es s) !! r = Some o' ∧ name o' = name o).
Proof.
  destruct (run_persists es s) as [HC HP HQ HS]. split_and!; try done.
  intros c r. apply run_clientCubes.
Qed.

End Persistence.

(** ** What a removal takes away, and for how long *)

Section Hidden.
Context {num : Type} {N : Number num} {L : Slerp num} {T : ToString num}.

Implicit Types (s : SocketHandler num) (c id : string) (m : Payload.msg num) (r : nat).
Implicit Types (clients : list (string * Payload.msg num)).

Lemma filter_delete {A} (P : A → Prop) `{!∀ a, Decision (P a)} (l : list A) i a :
  l !! i = Some a → ¬ P a → filter P (delete i l) = filter P l.
Proof.
  intros Hi Ha. rewrite delete_take_drop.
  rewrite <-(take_drop_middle l i a Hi) at 3.
  by rewrite !filter_app, filter_cons_False.
Qed.

(** Names decide what [getObjectByName] finds. *)
Lemma getObjectByName_names (objects objects' : list (Object3D num)) children id :
  (∀ r, name <$> objects' !! r = name <$> objects !! r) →
  getObjectByName objects' children id = getObjectByName objects children id.
Proof.
  intros Hnames. unfold getObjectByName. case_decide; [done|]. f_equal.
  apply list_find_ext. intros r. unfold named. by rewrite Hnames.
Qed.

Lemma proxies_names s s' c :
  scene s' = scene s → (∀ r, name <$> store s' !! r = name <$> store s !! r) →
  proxies s' c = proxies s c.
Proof.
  intros Hscene Hnames. unfold proxies. rewrite Hscene.
  apply list_filter_iff. intros r. unfold named. by rewrite Hnames.
Qed.

(** A removal leaves the children of every other name. *)
Lemma handleRemoveClient_proxies_other s id c :
  c ≠ id → proxies (handleRemoveClient id s) c = proxies s c.
Proof.
  intros Hne. unfold proxies, handleRemoveClient, getObjectByName. simpl.
  case_decide; [done|].
  destruct (list_find (named (store s) id) (scene s)) as [[i r]|] eqn:Hfind; [|done].
  simpl. rewrite (indexOf_list_find _ _ _ _ _ Hfind).
  apply list_find_Some in Hfind as (Hi & Hn & _).
  apply (filter_delete _ _ _ _ Hi). unfold named in *. congruence.
Qed.

(** After a removal no child carries the name. *)
Lemma handleRemoveClient_proxies_self s id :
  wf s → id ≠ "" → proxies (handleRemoveClient id s) id = [].
Proof.
  intros Hwf Hid. unfold proxies, handleRemoveClient, getObjectByName. simpl.
  case_decide; [done|].
  destruct (list_find (named (store s) id) (scene s)) as [[i r]|] eqn:Hfind; simpl.
  - rewrite (indexOf_list_find _ _ _ _ _ Hfind).
    apply list_find_Some in Hfind as (Hi & Hn & _).
    apply filter_none, Forall_forall. intros r' Hr' Hn'.
    pose proof (list_elem_of_delete_inv _ _ _ Hr') as Hin'.
    pose proof (wf_named _ Hwf r id (list_elem_of_lookup_2 _ _ _ Hi) Hn Hid) as Hr.
    pose proof (wf_named _ Hwf r' id Hin' Hn' Hid) as Hr2.
    assert (r' = r) as -> by congruence.
    by apply (NoDup_delete_lookup _ _ _ (wf_scene_NoDup _ Hwf) Hi).
  - apply filter_none. by apply list_find_None in Hfind.
Qed.

(** X5.  [handleRemoveClient id] changes the scene only, and there only
    the children named [id]: the children of every other name, the grid
    helper and the local object among them, stay as they are.  In a
    reachable state no child named [id] is left afterwards.  The empty
    identifier is the exception: [getObjectByName('')] finds the scene
    itself, which is no child of its own, so the call changes nothing. *)
Theorem X5_removal_detaches_only_the_named_mesh s id :
  handleRemoveClient "" s = s
  ∧ store (handleRemoveClient id s) = store s
  ∧ scene (handleRemoveClient id s) `sublist_of` scene s
  ∧ (∀ c, c ≠ id → proxies (handleRemoveClient id s) c = proxies s c)
  ∧ (reachable s → id ≠ "" → proxies (handleRemoveClient id s) id = []).
Proof.
  split_and!.
  - unfold handleRemoveClient, getObjectByName. simpl. by destruct s.
  - done.
  - apply remove_sublist.
  - intros c. apply handleRemoveClient_proxies_other.
  - intros Hwf%reachable_wf. by apply handleRemoveClient_proxies_self.
Qed.

(** A batch adds no child named after a key that is registered. *)
Lemma forEach_client_grows_registered now c clients : ∀ i acc,
  is_Some (clientCubes acc.2 !! c) → grows c acc.2 (forEach_client now i clients acc).2.
Proof.
  induction clients as [|[c' m] rest IH]; intros i [html s] Hc; simpl.
  - apply grows_refl.
  - apply (grows_trans _ _ (handleClient (now i) c' m (html, s)).2).
    + destruct (decide (c = c')) as [<-|Hne].
      * destruct Hc as [r Hr]. by eapply handleClient_grows_known.
      * by apply handleClient_grows.
    + apply IH. destruct Hc as [r Hr]. exists r.
      by eapply lookup_weaken; [|apply handleClient_persists].
Qed.

Lemma dispatch_hidden (e : Event) s id :
  wf s → is_Some (clientCubes s !! id) → id ≠ "" → proxies s id = [] →
  proxies (dispatch e s) id = [].
Proof.
  intros Hwf Hreg Hid Hnone. destruct e; simpl; try done.
  - unfold handleClients.
    change (proxies (set_pingStats ?h ?s') id) with (proxies s' id).
    pose proof (forEach_client_grows_registered now id clients 0
                  ("Socket Ping Stats<br/><br/>", s) Hreg) as G.
    by rewrite (grows_proxies _ _ _ (wf_scene _ Hwf) G).
  - destruct (decide (id = id0)) as [<-|Hne].
    + by apply handleRemoveClient_proxies_self.
    + by rewrite handleRemoveClient_proxies_other.
  - destruct (intervals s !! k); [|done]. unfold publish.
    by destruct (store s !! object s).
  - rewrite (proxies_names s); [done..|]. intros r. apply foldl_updateClientCube_names.
  - rewrite (proxies_names s); [done..|]. intros r. by apply alter_names.
Qed.

(** X6.  Once [removeClient] has come for a registered identifier (other
    than [""]), no later event puts a child of that name back into the
    scene: batches that hold the identifier again find the old record and
    add nothing, and nothing else adds children.  The peer is not shown
    again for the rest of the session. *)
Theorem X6_removed_peer_stays_hidden (es : list Event) s id :
  reachable s → is_Some (clientCubes s !! id) → id ≠ "" →
  proxies (run es (handleRemoveClient id s)) id = [].
Proof.
  intros Hs Hreg Hid. induction es as [|e es IH] using rev_ind.
  - apply handleRemoveClient_proxies_self; [by apply reachable_wf|done].
  - rewrite run_snoc. apply dispatch_hidden; try done.
    + apply reachable_wf, reachable_run. by apply (reachable_dispatch (on_removeClient id)).
    + destruct Hreg as [r Hr]. exists r.
      by apply run_clientCubes.
Qed.

End Hidden.

(** ** The publisher over a whole run *)

Section Publisher.
Context {num : Type} {N : Number num} {L : Slerp num} {T : ToString num}.

Implicit Types (s : SocketHandler num) (c id : string) (r : nat).

Lemma dispatch_myId (e : Event) s : myId (dispatch e s) = default (myId s) (assigned e).
Proof.
  destruct e; simpl; try done.
  - apply (forEach_client_world now clients 0 (_, s)).
  - destruct (intervals s !! k); [|done]. unfold publish.
    by destruct (store s !! object s).
Qed.

Lemma dispatch_emitted_prefix (e : Event) s :
  emitted s `prefix_of` emitted (dispatch e s)
  ∧ (length (emitted (dispatch e s))
     ≤ length (emitted s) + (if is_on_interval e then 1 else 0))%nat.
Proof.
  destruct (is_on_interval e) eqn:He.
  - destruct e; try done. simpl. destruct (intervals s !! k); [|split; [done|lia]].
    unfold publish. destruct (store s !! object s); simpl; [|split; [done|lia]].
    split; [by apply prefix_app_r|]. rewrite length_app. simpl. lia.
  - rewrite dispatch_emitted by done. split; [done|lia].
Qed.

(** X7.  Over any run from any state: every [id] event registers one more
    interval of 50 ms and none is ever cleared, so the intervals are those
    there were and one for each [id] event of the run (a second [id] event
    doubles the publishing); [myId] is the identifier of the last [id]
    event; messages are only appended to what was emitted, at most one for
    each firing of an interval. *)
Theorem X7_one_interval_for_each_id_event (es : list Event) s :
  intervals (run es s)
  = intervals s ++ replicate (length (filter (λ e, is_on_id e = true) es)) 50
  ∧ myId (run es s) = default (myId s) (last (omap assigned es))
  ∧ emitted s `prefix_of` emitted (run es s)
  ∧ (length (emitted (run es s))
     ≤ length (emitted s) + length (filter (λ e, is_on_interval e = true) es))%nat.
Proof.
  induction es as [|e es (Hi & Hm & Hp & Hl)] using rev_ind.
  - simpl. rewrite app_nil_r. split_and!; try done. lia.
  - rewrite run_snoc, !filter_app, !length_app, omap_app.
    destruct (dispatch_emitted_prefix e (run es s)) as [Hp' Hl'].
    split_and!.
    + rewrite dispatch_intervals_id, Hi, <-(assoc_L (++)). f_equal.
      rewrite replicate_add. f_equal.
      destruct (is_on_id e) eqn:He.
      * by rewrite filter_cons_True, filter_nil.
      * rewrite filter_cons_False, filter_nil; [done|congruence].
    + rewrite dispatch_myId, Hm. destruct e; simpl; rewrite ?app_nil_r; try done.
      by rewrite last_snoc.
    + by trans (emitted (run es s)).
    + destruct (is_on_interval e) eqn:He.
      * rewrite filter_cons_True, filter_nil by done. simpl. lia.
      * rewrite filter_cons_False, filter_nil by congruence. simpl. lia.
Qed.

(** *** The local object *)

Lemma handleClient_store_prefix now c (m : Payload.msg num) html s :
  store s `prefix_of` store (handleClient now c m (html, s)).2.
Proof.
  destruct (handleClient_cases c s) as [Hc|[Hc Hp]].
  - rewrite handleClient_truthy by done. simpl.
    by destruct (Payload.p m), (Payload.q m).
  - rewrite handleClient_unknown by done. simpl. by apply prefix_app_r.
Qed.

Lemma forEach_client_store_prefix now (clients : list (string * Payload.msg num)) : ∀ i acc,
  store acc.2 `prefix_of` store (forEach_client now i clients acc).2.
Proof.
  induction clients as [|[c m] rest IH]; intros i [html s]; simpl; [done|].
  trans (store (handleClient (now i) c m (html, s)).2);
    [apply handleClient_store_prefix|apply IH].
Qed.

(** No event but an edit through the GUI touches the local object. *)
Lemma dispatch_local (e : Event) s :
  wf s → counted s → is_on_gui e = false →
  object (dispatch e s) = object s ∧ store (dispatch e s) !! object s = store s !! object s.
Proof.
  intros Hwf Hn He. destruct e; simpl; try done.
  - split; [apply (forEach_client_world now clients 0 (_, s))|].
    pose proof (wf_object _ Hwf) as [o Ho]%lookup_lt_is_Some. rewrite Ho.
    eapply prefix_lookup_Some; [exact Ho|].
    apply (forEach_client_store_prefix now clients 0 (_, s)).
  - destruct (intervals s !! k); [|done]. unfold publish.
    by destruct (store s !! object s) eqn:Ho.
  - split; [done|]. apply updateClientCubes_other. intros c Hc%(counted_ref _ Hn).
    rewrite (counted_object _ Hn) in Hc. lia.
Qed.

Lemma run_local (es : list Event) s :
  reachable s → (∀ e, e ∈ es → is_on_gui e = false) →
  object (run es s) = object s ∧ store (run es s) !! object s = store s !! object s.
Proof.
  intros Hs. induction es as [|e es IH] using rev_ind; intros Hes; [done|].
  rewrite run_snoc.
  destruct IH as [Ho Hst]; [intros e' He'; apply Hes, elem_of_app; by left|].
  pose proof (reachable_run es s Hs) as Hr.
  destruct (dispatch_local e (run es s)) as [Ho' Hst'].
  - by apply reachable_wf.
  - by apply reachable_counted.
  - apply Hes, elem_of_app. right. by left.
  - rewrite Ho', Ho. split; [done|]. rewrite <-Hst, <-Ho. exact Hst'.
Qed.

(** X10.  In a reachable state the local object is no mesh of the
    registry, and only an edit through the GUI changes it: over a run
    without such an edit (batches, also ones that hold the local
    identifier, removals, frames, firings) its pose stays what it was, and
    a firing of a registered interval after the run publishes exactly that
    pose. *)
Theorem X10_only_the_gui_moves_the_local_object (es : list Event) s :
  reachable s → (∀ e, e ∈ es → is_on_gui e = false) →
  (∀ c, clientCubes s !! c ≠ Some (object s))
  ∧ ∃ o, store s !! object s = Some o
       ∧ store (run es s) !! object (run es s) = Some o
       ∧ ∀ k d now, intervals (run es s) !! k = Some d →
           emitted (dispatch (on_interval k now) (run es s))
           = emitted (run es s) ++ [Update.mk now (position o) (quaternion o)].
Proof.
  intros Hs Hes. destruct (run_local es s Hs Hes) as [Ho Hst].
  pose proof (reachable_wf _ Hs) as Hwf. pose proof (reachable_counted _ Hs) as Hn.
  split.
  - intros c Hc. pose proof (counted_ref _ Hn _ _ Hc) as Hge.
    rewrite (counted_object _ Hn) in Hge. lia.
  - pose proof (wf_object _ Hwf) as [o Hobj]%lookup_lt_is_Some.
    exists o. split; [done|]. rewrite Ho, Hst. split; [done|].
    intros k d now Hk. simpl. rewrite Hk. unfold publish. by rewrite Ho, Hst, Hobj.
Qed.

(** X9.  A frame and a removal can be handled in either order: the frame
    changes poses only and the removal looks at names and at the scene
    only, so both orders end in the same state. *)
Theorem X9_frame_and_removal_commute s id :
  updateClientCubes (handleRemoveClient id s) = handleRemoveClient id (updateClientCubes s).
Proof.
  unfold handleRemoveClient at 2. simpl.
  rewrite (getObjectByName_names (store s)); [done|].
  intros r. apply foldl_updateClientCube_names.
Qed.

End Publisher.

(** ** The same batch again *)

Section Redelivery.
Context {num : Type} {N : Number num} {T : ToString num}.

Implicit Types (s : SocketHandler num) (c id : string) (m : Payload.msg num) (r : nat).
Implicit Types (clients : list (string * Payload.msg num)).

(** Every key of a batch that is no name of [Object.prototype] is
    registered once the batch is handled. *)
Lemma handleClients_registers now clients s c m :
  (c, m) ∈ clients → c ∉ Object_prototype →
  is_Some (clientCubes (handleClients now clients s) !! c).
Proof.
  intros (l1 & l2 & ->)%list_elem_of_split Hproto. unfold handleClients.
  rewrite forEach_client_app. simpl.
  destruct (forEach_client now 0 l1 ("Socket Ping Stats<br/><br/>", s)) as [h1 s1].
  assert (is_Some (clientCubes (handleClient (now (0 + length l1)%nat) c m (h1, s1)).2 !! c))
    as [r Hr].
  { destruct (handleClient_cases c s1) as [Hc|[Hc _]].
    - rewrite handleClient_truthy by done. simpl.
      apply truthy_true in Hc as [Hc|Hc]; [|done].
      by destruct (Payload.p m), (Payload.q m).
    - rewrite handleClient_unknown by done. simpl. by rewrite lookup_insert_eq. }
  exists r. eapply lookup_weaken; [exact Hr|].
  apply (persists_clientCubes _ _ (forEach_client_persists now l2 _ _)).
Qed.

(** A batch under whose keys the handler finds something creates
    nothing. *)
Lemma forEach_client_creates_nothing now clients : ∀ i acc,
  (∀ c m, (c, m) ∈ clients → truthy (clientCubes acc.2) c = true) →
  let acc' := forEach_client now i clients acc in
  clientCubes acc'.2 = clientCubes acc.2 ∧ store acc'.2 = store acc.2
  ∧ scene acc'.2 = scene acc.2.
Proof.
  induction clients as [|[c m] rest IH]; intros i [html s] Hall; simpl; [done|].
  pose proof (Hall c m) as Hc. simpl in Hc.
  assert (clientCubes (handleClient (now i) c m (html, s)).2 = clientCubes s
          ∧ store (handleClient (now i) c m (html, s)).2 = store s
          ∧ scene (handleClient (now i) c m (html, s)).2 = scene s) as (HC & HS & HN).
  { rewrite handleClient_truthy by (apply Hc; by left). simpl.
    by destruct (Payload.p m), (Payload.q m). }
  destruct (IH (S i) (handleClient (now i) c m (html, s))) as (-> & -> & ->); [|done].
  intros c' m' Hin. rewrite HC. apply (Hall c' m'). by right.
Qed.

(** X11.  After [handleClients] every key of the batch that is no name
    of a property of [Object.prototype] is a key of [clientCubes].  A
    batch (keys distinct) under each of whose keys the handler finds
    something, a key of [clientCubes] or such a name, creates no object
    and adds nothing to the scene; handling the same batch once more,
    whatever the clock reads, leaves the registry exactly as the first
    pass left it: the same records, the same targets, the same objects. *)
Theorem X11_redelivered_batch_changes_no_record s now now' clients :
  (∀ c m, (c, m) ∈ clients → c ∉ Object_prototype →
     is_Some (clientCubes (handleClients now clients s) !! c))
  ∧ (NoDup (clients.*1) →
     (∀ c m, (c, m) ∈ clients → is_Some (clientCubes s !! c) ∨ c ∈ Object_prototype) →
     let s' := handleClients now clients s in
     let s'' := handleClients now' clients s' in
     (clientCubes s' = clientCubes s ∧ store s' = store s ∧ scene s' = scene s)
     ∧ (clientCubes s'' = clientCubes s' ∧ store s'' = store s' ∧ scene s'' = scene s'
        ∧ positions s'' = positions s' ∧ quaternions s'' = quaternions s')).
Proof.
  split; [intros c m; apply handleClients_registers|].
  intros Hnd Hfound s' s''.
  assert (∀ c m, (c, m) ∈ clients → truthy (clientCubes s) c = true) as Hall.
  { intros c m Hin. apply truthy_true. by eapply Hfound. }
  destruct (forEach_client_creates_nothing now clients 0 ("Socket Ping Stats<br/><br/>", s) Hall)
    as (HC & HS & HN).
  assert (clientCubes s' = clientCubes s ∧ store s' = store s ∧ scene s' = scene s)
    as (HC' & HS' & HN') by done.
  assert (∀ c m, (c, m) ∈ clients → truthy (clientCubes s') c = true) as Hall'.
  { intros c m Hin. rewrite HC'. by eapply Hall. }
  destruct (forEach_client_creates_nothing now' clients 0
              ("Socket Ping Stats<br/><br/>", s') Hall') as (HC2 & HS2 & HN2).
  split; [done|]. subst s''. split_and!; try done.
  - apply map_eq. intros c. destruct (decide (c ∈ clients.*1)) as [Hin|Hout].
    + apply list_elem_of_fmap in Hin as ([c' m] & -> & Hin). cbn [fst].
      destruct (handleClients_truthy now' clients s' c' m Hnd Hin (Hall' _ _ Hin))
        as (_ & -> & _).
      destruct (handleClients_truthy now clients s c' m Hnd Hin (Hall _ _ Hin))
        as (_ & Hp & _).
      fold s' in Hp. destruct (Payload.p m); [by rewrite Hp|done].
    + apply (keeps_positions _ _ _
               (forEach_client_keeps now' c clients 0 ("Socket Ping Stats<br/><br/>", s') Hout)).
  - apply map_eq. intros c. destruct (decide (c ∈ clients.*1)) as [Hin|Hout].
    + apply list_elem_of_fmap in Hin as ([c' m] & -> & Hin). cbn [fst].
      destruct (handleClients_truthy now' clients s' c' m Hnd Hin (Hall' _ _ Hin))
        as (_ & _ & -> & _).
      destruct (handleClients_truthy now clients s c' m Hnd Hin (Hall _ _ Hin))
        as (_ & _ & Hq & _).
      fold s' in Hq. destruct (Payload.q m); [by rewrite Hq|done].
    + apply (keeps_quaternions _ _ _
               (forEach_client_keeps now' c clients 0 ("Socket Ping Stats<br/><br/>", s') Hout)).
Qed.

End Redelivery.

(** ** Frames before any target *)

Section Idle.
Context {num : Type} {N : Number num} {L : Slerp num}.

Implicit Types (s : SocketHandler num) (c id : string) (r : nat).

Lemma set_store_id s : set_store (store s) s = s.
Proof. by destruct s. Qed.

Lemma foldl_updateClientCube_idle s (l : list (string * nat)) : ∀ objects,
  (∀ c r, (c, r) ∈ l → positions s !! c = None ∧ quaternions s !! c = None) →
  foldl (updateClientCube s) objects l = objects.
Proof.
  induction l as [|[c r] l IH]; intros objects Hidle; simpl; [done|].
  destruct (Hidle c r) as [Hp Hq]; [by left|].
  unfold updateClientCube at 2. simpl. rewrite Hp, Hq.
  apply IH. intros c' r' Hin. apply (Hidle c' r'). by right.
Qed.


End Idle.

(** ** The further properties at concrete inputs *)

Section Concrete_more.

#[local] Existing Instance blend.
#[local] Existing Instance Sample.digits.

(** X1 at the scenario of the specification. *)
Lemma X1_registry_witness :
  (∃ o, store Sample.met !! 2%nat = Some o ∧ name o = "p1") ∧ NoDup (scene Sample.met).
Proof.
  destruct (X1_registry_is_consistent Sample.met met_reachable)
    as (Hcube & _ & _ & _ & _ & Hnd).
  split; [|exact Hnd]. apply (Hcube "p1"). by vm_compute.
Defined.

(** X2 for a registered and for an unknown identifier. *)
Lemma X2_one_mesh_witness :
  (∃ o, meshes Sample.met "p1" = [o]) ∧ meshes Sample.met "ghost" = [].
Proof.
  split.
  - destruct (X2_one_mesh_for_each_identifier Sample.met "p1" met_reachable)
      as (_ & _ & Hone); [done|].
    destruct (Hone 2%nat) as (o & _ & Ho); [by vm_compute|]. by exists o.
  - destruct (X2_one_mesh_for_each_identifier Sample.met "ghost" met_reachable)
      as (_ & Hnone & _); [done|].
    by destruct Hnone as (Hm & _); [by vm_compute|].
Defined.

(** X4: the record of ["p1"] outlives its removal and what follows. *)
Lemma X4_registry_witness :
  clientCubes (run More.later (handleRemoveClient "p1" Sample.met)) !! "p1" = Some 2%nat.
Proof.
  apply (X4_registry_only_grows More.later (handleRemoveClient "p1" Sample.met)).
  by vm_compute.
Defined.

(** X5 at the scenario of the specification. *)
Lemma X5_removal_witness :
  proxies (handleRemoveClient "p1" Sample.met) "p1" = []
  ∧ proxies (handleRemoveClient "p1" Sample.met) "" = proxies Sample.met "".
Proof.
  destruct (X5_removal_detaches_only_the_named_mesh Sample.met "p1")
    as (_ & _ & _ & Hother & Hself).
  split; [by apply Hself; [apply met_reachable|]|by apply Hother].
Defined.

(** X6: ["p1"] is removed and seen again twice. *)
Lemma X6_hidden_witness :
  proxies (run More.later (handleRemoveClient "p1" Sample.met)) "p1" = [].
Proof.
  apply X6_removed_peer_stays_hidden.
  - apply met_reachable.
  - exists 2%nat. by vm_compute.
  - done.
Defined.

(** X10: a run in which the local identifier is in a batch. *)
Lemma X10_local_object_witness :
  let s := dispatch (on_id "me") Sample.met in
  ∃ o, store s !! object s = Some o
     ∧ store (run More.hands_off s) !! object (run More.hands_off s) = Some o.
Proof.
  intros s.
  destruct (X10_only_the_gui_moves_the_local_object More.hands_off s)
    as (_ & o & Ho & Hrun & _).
  - apply reachable_dispatch, met_reachable.
  - intros e He. unfold More.hands_off in He.
    repeat (apply elem_of_cons in He as [->|He]; [done|]). by apply elem_of_nil in He.
  - exists o. split; [exact Ho|exact Hrun].
Defined.

(** X11: the second batch of the scenario, twice more. *)
Lemma X11_redelivery_witness :
  let s' := handleClients (Sample.clock 300) Sample.batch2 Sample.met in
  positions (handleClients (Sample.clock 400) Sample.batch2 s') = positions s'
  ∧ store s' = store Sample.met.
Proof.
  intros s'.
  destruct (proj2 (X11_redelivered_batch_changes_no_record Sample.met (Sample.clock 300)
                     (Sample.clock 400) Sample.batch2))
    as ((_ & Hstore & _) & (_ & _ & _ & Hp & _)).
  - one_entry.
  - intros c m [= -> ->]%list_elem_of_singleton. left. exists 2%nat. by vm_compute.
  - by split.
Defined.


(** X13 for a peer named ["constructor"], at its first sighting. *)
Lemma X13_inherited_name_witness :
  let s' := handleClients (Sample.clock 120) Sample.batch_constructor Sample.boot in
  clientCubes s' !! "constructor" = None
  ∧ proxies s' "constructor" = []
  ∧ positions s' !! "constructor" = Some (mkVector3 1 1 1)%float.
Proof.
  intros s'.
  destruct (X13_inherited_name_gets_no_mesh (L := blend) Sample.boot (Sample.clock 120)
              Sample.batch_constructor "constructor"
              (Payload.mk 100%float (Some (mkVector3 1 1 1)%float) None))
    as (_ & _ & Hp & _ & Hnone).
  - one_entry.
  - one_entry.
  - apply (bool_decide_unpack _). by vm_compute.
  - destruct (Hnone (reachable_Main _ _ _)) as (Hc & _ & _ & Hx).
    split; [exact Hc|]. split; [exact Hx|exact Hp].
Defined.

End Concrete_more.
